(** * TfidfDocRanker: query-time TF-IDF ranking (tfidf_doc_ranker.py)

    A shallow embedding of [TfidfDocRanker] and the properties of its
    query vectoriser ([text2spvec]), of the two ranking entry points
    ([closest_docs], [doc_scores]), of the metadata resolver ([doc_meta])
    and of the batch wrappers.

    Numbers.  numpy computes in IEEE binary64.  The embedding idealises a
    finite float as a real number (no rounding, no overflow) and keeps the
    one non-finite value that the arithmetic of this file can create from
    well-typed integer inputs, [NaN], which [np.log] returns on a negative
    argument. *)

From Stdlib Require Import Reals Lra.
From stdpp Require Import gmap strings list sorting.

Set Warnings "-clear-no-such-hyp".

(** ** Float values *)

Inductive fval : Type :=
| Num (x : R)
| NaN.

Definition fzero : fval := Num 0%R.

Definition fadd (a b : fval) : fval :=
  match a, b with
  | Num x, Num y => Num (x + y)%R
  | _, _ => NaN
  end.

Definition fmul (a b : fval) : fval :=
  match a, b with
  | Num x, Num y => Num (x * y)%R
  | _, _ => NaN
  end.

Definition fneg (a : fval) : fval :=
  match a with
  | Num x => Num (- x)%R
  | NaN => NaN
  end.

(** [a != 0] on floats: true for every nonzero number and for [NaN]. *)
Definition fnonzero (a : fval) : Prop :=
  match a with
  | Num x => x ≠ 0%R
  | NaN => True
  end.

Definition is_finite (a : fval) : Prop :=
  match a with
  | Num _ => True
  | NaN => False
  end.

(** The order numpy sorts by: the usual order on numbers, [NaN] last. *)
Definition np_le (a b : fval) : Prop :=
  match a, b with
  | Num x, Num y => (x <= y)%R
  | _, NaN => True
  | NaN, Num _ => False
  end.

(** [a >= b] as used for "descending by score". *)
Definition fge (a b : fval) : Prop :=
  match a, b with
  | Num x, Num y => (y <= x)%R
  | _, _ => False
  end.

Global Instance fnonzero_dec a : Decision (fnonzero a).
Proof.
  destruct a as [x|]; simpl; [|left; exact I].
  destruct (Req_dec_T x 0%R); [right|left]; auto.
Defined.

Global Instance np_le_dec a b : Decision (np_le a b).
Proof.
  destruct a as [x|], b as [y|]; simpl;
    try (left; exact I); try (right; tauto).
  destruct (Rle_dec x y); [left|right]; auto.
Defined.

(** The result of [np.log]: a number on a positive argument, [-inf] at
    zero, [nan] below zero. *)
Inductive logval : Type :=
| LogNum (x : R)
| LogNegInf
| LogNaN.

Definition np_log (x : R) : logval :=
  if Rlt_dec 0 x then LogNum (ln x)
  else if Req_dec_T x 0%R then LogNegInf
  else LogNaN.

(** [np.log1p] on an occurrence count. *)
Definition np_log1p (c : nat) : fval := Num (ln (1 + INR c)).

(** [idfs[idfs < 0] = 0]: every entry that compares below zero is
    overwritten; [nan < 0] is false, so a [nan] stays. *)
Definition clamp_negative (v : logval) : fval :=
  match v with
  | LogNum x => if Rlt_dec x 0 then Num 0%R else Num x
  | LogNegInf => Num 0%R
  | LogNaN => NaN
  end.

Global Instance fval_inhabited : Inhabited fval := populate fzero.

(** ** Exceptions and logging

    A call either raises a Python exception or returns a value; on the way
    it may emit records on the module-level logger. *)

Inductive exn : Type :=
| RuntimeError (msg : string)
| KeyError
| IndexError
| ValueError.

Inductive log_record : Type :=
| LogWarning (msg : string).

Record M (A : Type) : Type := MkM {
  logged : list log_record;
  outcome : exn + A
}.
Arguments MkM {A} _ _.
Arguments logged {A} _.
Arguments outcome {A} _.

Definition raise {A} (e : exn) : M A := MkM [] (inl e).

Definition logger_warning (msg : string) : M unit :=
  MkM [LogWarning msg] (inr tt).

Global Instance M_ret : MRet M := λ A x, MkM [] (inr x).

Global Instance M_bind : MBind M := λ A B f c,
  match outcome c with
  | inl e => MkM (logged c) (inl e)
  | inr x => MkM (logged c ++ logged (f x)) (outcome (f x))
  end.

(** [c] returns [x] (whatever it logs). *)
Definition returns {A} (c : M A) (x : A) : Prop := outcome c = inr x.

(** [c] raises [e]. *)
Definition raises {A} (c : M A) (e : exn) : Prop := outcome c = inl e.

Fixpoint foldlM {A B} (f : A → B → M A) (a : A) (l : list B) : M A :=
  match l with
  | [] => mret a
  | x :: l' => a' ← f a x; foldlM f a' l'
  end.

(** A dictionary subscript [d[k]]: [KeyError] on a missing key. *)
Definition dict_get `{Countable K} {V} (d : gmap K V) (k : K) : M V :=
  match d !! k with
  | Some v => mret v
  | None => raise KeyError
  end.

(** A list or array subscript [a[i]] with [0 <= i]: [IndexError] out of
    range. *)
Definition list_get {A} (a : list A) (i : nat) : M A :=
  match a !! i with
  | Some v => mret v
  | None => raise IndexError
  end.

(** numpy integer-array indexing [a[o]]. *)
Definition index_many {A} (a : list A) (o : list nat) : M (list A) :=
  mapM (list_get a) o.

(** A Python slice [l[0:k]]: a negative [k] counts from the end. *)
Definition slice_to {A} (l : list A) (k : Z) : list A :=
  if decide (k < 0)%Z then take (length l - Z.to_nat (- k)) l
  else take (Z.to_nat k) l.

(** ** External collaborators

    [tfidf_util] ([normalize], [hash], [filter_ngram]) and
    [SimpleTokenizer] are used as black boxes.  [ngrams_of n text] stands
    for [tokenizer.tokenize(text).ngrams(n=n, uncased=True,
    filter_fn=utils.filter_ngram)]; [hash] obeys its range contract. *)

Class TextTools : Type := {
  normalize : string → string;
  ngrams_of : nat → string → list string;
  hash : string → nat → nat;
  hash_range : ∀ w n, 0 < n → hash w n < n
}.

(** [a[o]] for a permutation [o] of the positions of [a]. *)
Definition gather (a : list fval) (o : list nat) : list fval :=
  (λ i, a !!! i) <$> o.

(** numpy's sorting routines.  The default sort is not stable, so only the
    documented contract is kept: [argsort a] lists all positions of [a] in
    ascending order of value ([nan] last); [argpartition a kth] lists all
    positions so that position [kth] holds the value a full sort would put
    there, with no larger value before it and no smaller value after it. *)

Class NumpySort : Type := {
  argsort : list fval → list nat;
  argpartition : list fval → nat → list nat;
  argsort_perm : ∀ a, argsort a ≡ₚ seq 0 (length a);
  argsort_sorted : ∀ a, StronglySorted np_le (gather a (argsort a));
  argpartition_perm : ∀ a kth,
    kth < length a → argpartition a kth ≡ₚ seq 0 (length a);
  argpartition_pivot : ∀ a kth,
    kth < length a →
    ∀ x y, x ∈ take kth (gather a (argpartition a kth)) →
           y ∈ drop kth (gather a (argpartition a kth)) → np_le x y
}.

(** ** The loaded index *)

(** The term-document matrix in CSR form: one list of stored
    [(column, value)] pairs per hashed-term row. *)
Record csr_matrix : Type := {
  mat_rows : list (list (nat * R));
  mat_ncols : nat
}.

(** A one-row CSR matrix built from [(data, indices, indptr)]: the stored
    entries in storage order, explicit zeros included. *)
Record sparse_vec : Type := {
  sv_ncols : nat;
  sv_entries : list (nat * fval)
}.

(** The one-row score matrix [res].  Only its stored entries matter here;
    the order in which scipy keeps them is internal to the library and
    only decides ties, which [argsort] leaves open anyway. *)
Record score_row : Type := {
  row_ncols : nat;
  row_entries : gmap nat fval
}.

Definition meta_record : Type := gmap string string.

(** [doc_dict[3][m]]: a pair of dictionaries keyed by the query string,
    document positions at [[0]] and boost values at [[1]]. *)
Record meta_source : Type := {
  ms_positions : gmap string (list nat);
  ms_values : gmap string (list R)
}.

(** [doc_dict] is a tuple of two, three, four or more components. *)
Inductive doc_dict_t : Type :=
| DocDict2 (id2idx : gmap string nat) (idx2id : list string)
| DocDict3 (id2idx : gmap string nat) (idx2id : list string)
           (metas : gmap string meta_record)
| DocDict4 (id2idx : gmap string nat) (idx2id : list string)
           (metas : gmap string meta_record)
           (sources : gmap string meta_source)
| DocDictMore (id2idx : gmap string nat) (idx2id : list string)
              (metas : gmap string meta_record)
              (sources : gmap string meta_source) (extra : nat).

Definition dd_len (dd : doc_dict_t) : nat :=
  match dd with
  | DocDict2 _ _ => 2
  | DocDict3 _ _ _ => 3
  | DocDict4 _ _ _ _ => 4
  | DocDictMore _ _ _ _ extra => 5 + extra
  end.

Definition dd_id2idx (dd : doc_dict_t) : gmap string nat :=
  match dd with
  | DocDict2 m _ | DocDict3 m _ _ | DocDict4 m _ _ _
  | DocDictMore m _ _ _ _ => m
  end.

Definition dd_idx2id (dd : doc_dict_t) : list string :=
  match dd with
  | DocDict2 _ l | DocDict3 _ l _ | DocDict4 _ l _ _
  | DocDictMore _ l _ _ _ => l
  end.

Definition dd_metas (dd : doc_dict_t) : option (gmap string meta_record) :=
  match dd with
  | DocDict2 _ _ => None
  | DocDict3 _ _ m | DocDict4 _ _ m _ | DocDictMore _ _ m _ _ => Some m
  end.

Definition dd_sources (dd : doc_dict_t) : option (gmap string meta_source) :=
  match dd with
  | DocDict2 _ _ | DocDict3 _ _ _ => None
  | DocDict4 _ _ _ s | DocDictMore _ _ _ s _ => Some s
  end.

Record TfidfDocRanker : Type := {
  doc_mat : csr_matrix;
  ngrams : nat;
  hash_size : nat;
  doc_freqs : list nat;
  doc_dict : doc_dict_t;
  strict : bool
}.

Definition num_docs (self : TfidfDocRanker) : nat :=
  size (dd_id2idx (doc_dict self)).

(** ** numpy and scipy primitives *)

(** The number of times [t] occurs in [wids]. *)
Definition occurrences (t : nat) (wids : list nat) : nat :=
  length (filter (λ w, w = t) wids).

(** [np.unique(wids, return_counts=True)]: the sorted unique elements,
    each with the number of times it comes up in [wids]. *)
Definition np_unique (wids : list nat) : list (nat * nat) :=
  (λ t, (t, occurrences t wids)) <$> merge_sort (≤) (remove_dups wids).

(** [sums[k] += x] on the accumulator of the sparse product; a column not
    touched before starts from 0. *)
Definition sums_add (sums : gmap nat fval) (k : nat) (x : fval)
  : gmap nat fval :=
  <[k := fadd (default fzero (sums !! k)) x]> sums.

Definition accumulate_row (v : fval) (brow : list (nat * R))
    (sums : gmap nat fval) : gmap nat fval :=
  foldl (λ s kb, sums_add s kb.1 (fmul v (Num kb.2))) sums brow.

Definition accumulate (sp : list (nat * fval)) (rows : list (list (nat * R)))
  : gmap nat fval :=
  foldl (λ s jv, accumulate_row jv.2 (rows !!! jv.1) s) ∅ sp.

(** [spvec * doc_mat] (scipy's [csr_matmat] on a one-row left operand):
    shapes must agree; each stored entry [(j, v)] of the vector adds
    [v * b] to column [k] for each stored [(k, b)] of row [j]; a column is
    kept in the result when its sum compares different from 0. *)
Definition csr_mul (spvec : sparse_vec) (B : csr_matrix) : M score_row :=
  if decide (sv_ncols spvec = length (mat_rows B)) then
    mret {| row_ncols := mat_ncols B;
            row_entries := filter (λ kv, fnonzero kv.2)
                             (accumulate (sv_entries spvec) (mat_rows B)) |}
  else raise ValueError.

(** One cell [res[0, i]]; an absent cell reads as 0. *)
Definition row_get (res : score_row) (i : nat) : M fval :=
  if decide (i < row_ncols res) then
    mret (default fzero (row_entries res !! i))
  else raise IndexError.

(** [res[0, idxs]] for a sequence of columns. *)
Definition row_get_many (res : score_row) (idxs : list nat) : M (list fval) :=
  mapM (row_get res) idxs.

(** [res[0, idxs] = xs] with [len(xs) == len(idxs)]: scipy overwrites the
    cells that are stored and inserts a stored entry for each listed cell
    that was not (the case it reports with a SparseEfficiencyWarning), so
    every listed cell ends up stored, zero or not; a column listed twice
    keeps its last value. *)
Definition row_set_many (res : score_row) (idxs : list nat) (xs : list fval)
  : score_row :=
  {| row_ncols := row_ncols res;
     row_entries := foldl (λ m ix, <[ix.1 := ix.2]> m)
                          (row_entries res) (zip idxs xs) |}.

(** [res[0, idxs] + arr] where [cur] holds the listed cells: the sum of a
    sparse row and a dense array is dense, [arr] is broadcast to the shape
    of the row, so its length must be that of [cur] or 1. *)
Definition broadcast_add (cur arr : list fval) : M (list fval) :=
  if decide (length arr = length cur) then mret (zip_with fadd cur arr)
  else match arr with
       | [x] => mret ((λ c, fadd c x) <$> cur)
       | _ => raise ValueError
       end.

(** [np.argpartition(a, kth)] with Python's integer [kth]: a negative
    [kth] counts from the end, and [kth] out of bounds is a [ValueError]. *)
Definition np_argpartition {np : NumpySort} (a : list fval) (kth : Z)
  : M (list nat) :=
  let n := Z.of_nat (length a) in
  let kth' := if decide (kth < 0)%Z then (kth + n)%Z else kth in
  if decide (0 ≤ kth' < n)%Z then mret (argpartition a (Z.to_nat kth'))
  else raise ValueError.

(** A worker count that [ThreadPool] accepts: none given, or at least 1. *)
Definition workers_ok (num_workers : option Z) : Prop :=
  match num_workers with
  | None => True
  | Some n => (1 ≤ n)%Z
  end.

Global Instance workers_ok_dec num_workers : Decision (workers_ok num_workers).
Proof. destruct num_workers; simpl; apply _. Defined.

(** The order in which the calls of a pool complete.  It depends on the
    worker count and on timing, not on the caller: [clock i] stands for
    the time at which the call on item [i] completes, and the positions
    are taken in the order of their completion times. *)
Definition clock_le (clock : nat → nat) (i j : nat) : Prop :=
  clock i ≤ clock j.

Definition clock_le_dec (clock : nat → nat) (i j : nat)
  : Decision (clock_le clock i j) := decide (clock i ≤ clock j).

Definition completion_order (clock : nat → nat) (n : nat) : list nat :=
  @merge_sort nat (clock_le clock) (clock_le_dec clock) (seq 0 n).

(** The state of a running [map]: what was logged, the results stored so
    far at the positions of their items, and the first failure. *)
Definition pool_state (B : Type) : Type :=
  (list log_record * gmap nat B * option exn)%type.

(** The call on item [i] completes: its result is stored at position
    [i]; if it raised, the exception is kept unless one arrived before. *)
Definition pool_step {A B} (f : A → M B) (xs : list A)
    (st : pool_state B) (i : nat) : pool_state B :=
  match xs !! i with
  | None => st
  | Some x =>
      match outcome (f x) with
      | inr y => (st.1.1 ++ logged (f x), <[i := y]> st.1.2, st.2)
      | inl e => (st.1.1 ++ logged (f x), st.1.2, Some (default e st.2))
      end
  end.

(** [ThreadPool(num_workers)] followed by [threads.map(f, xs)].  The pool
    refuses a worker count below 1.  Otherwise every item is called, the
    calls completing in the order given by [clock]; when all are done,
    [map] returns the stored results in input order, unless a call
    raised: then it re-raises the exception that arrived first.  (The
    pool may skip what is left of a chunk of items after a failure in it;
    that only takes log records away.) *)
Definition ThreadPool_map {A B} (num_workers : option Z) (clock : nat → nat)
    (f : A → M B) (xs : list A) : M (list B) :=
  if decide (workers_ok num_workers) then
    let st := foldl (pool_step f xs) ([], ∅, None)
                    (completion_order clock (length xs)) in
    match st.2 with
    | Some e => MkM st.1.1 (inl e)
    | None => MkM st.1.1 (inr (omap (λ i, st.1.2 !! i) (seq 0 (length xs))))
    end
  else raise ValueError.

(** ** TfidfDocRanker methods *)

Section Ranker.
Context {tools : TextTools} {np : NumpySort}.

(** [get_doc_index]: doc_id --> doc_index. *)
Definition get_doc_index (self : TfidfDocRanker) (doc_id : string) : M nat :=
  dict_get (dd_id2idx (doc_dict self)) doc_id.

(** [get_doc_id]: doc_index --> doc_id. *)
Definition get_doc_id (self : TfidfDocRanker) (doc_index : nat) : M string :=
  list_get (dd_idx2id (doc_dict self)) doc_index.

(** [doc_meta]: pmid --> doc_meta. *)
Definition doc_meta (self : TfidfDocRanker) (pmid_or_title : string)
  : meta_record :=
  if decide (3 ≤ dd_len (doc_dict self)) then
    match dd_metas (doc_dict self) with
    | Some metas => default ∅ (metas !! pmid_or_title)
    | None => ∅
    end
  else ∅.

Definition batch_doc_meta (self : TfidfDocRanker) (pmids : list string)
    (num_workers : option Z) (clock : nat → nat) : M (list meta_record) :=
  ThreadPool_map num_workers clock (λ p, mret (doc_meta self p)) pmids.

(** [parse]: the query as n-grams. *)
Definition parse (self : TfidfDocRanker) (query : string) : list string :=
  ngrams_of (ngrams self) query.

(** The hashed n-grams of a query. *)
Definition query_wids (self : TfidfDocRanker) (query : string) : list nat :=
  (λ w, hash w (hash_size self)) <$> parse self (normalize query).

(** One IDF value: [log((N - Nt + 0.5) / (Nt + 0.5))], negatives
    replaced by 0. *)
Definition idf (N Nt : nat) : fval :=
  clamp_negative (np_log ((INR N - INR Nt + 0.5) / (INR Nt + 0.5))).

(** [self.doc_freqs[wids]].  [__init__] keeps
    [metadata['doc_freqs'].squeeze()]: a vector with a single element
    becomes a 0-dimensional array, and subscripting that with an index
    array is an [IndexError]; any other vector is indexed as usual. *)
Definition freqs_at (self : TfidfDocRanker) (wids : list nat) : M (list nat) :=
  if decide (length (doc_freqs self) = 1) then raise IndexError
  else index_many (doc_freqs self) wids.

(** The TF-IDF data of the distinct word ids of a non-empty query,
    together with those ids. *)
Definition tfidf_data (self : TfidfDocRanker) (wids : list nat)
  : M (list fval * list nat) :=
  let uc := np_unique wids in
  let wids_unique := uc.*1 in
  let wids_counts := uc.*2 in
  let tfs := np_log1p <$> wids_counts in
  Ns ← freqs_at self wids_unique;
  let idfs := idf (num_docs self) <$> Ns in
  let data := zip_with fmul tfs idfs in
  mret (data, wids_unique).

Definition no_valid_word (query : string) : string :=
  "No valid word in: " +:+ query.

(** [text2spvec(query)] (with [val_idx=False], as every caller in the
    class has it). *)
Definition text2spvec (self : TfidfDocRanker) (query : string)
  : M sparse_vec :=
  let wids := query_wids self query in
  if decide (length wids = 0) then
    if strict self then raise (RuntimeError (no_valid_word query))
    else
      _ ← logger_warning (no_valid_word query);
      mret {| sv_ncols := hash_size self; sv_entries := [] |}
  else
    '(data, wids_unique) ← tfidf_data self wids;
    mret {| sv_ncols := hash_size self;
            sv_entries := zip wids_unique data |}.

(** [text2spvec(query, val_idx=True)]: the data and index arrays. *)
Definition text2spvec_val_idx (self : TfidfDocRanker) (query : string)
  : M (list fval * list nat) :=
  let wids := query_wids self query in
  if decide (length wids = 0) then
    if strict self then raise (RuntimeError (no_valid_word query))
    else
      _ ← logger_warning (no_valid_word query);
      mret ([], [])
  else tfidf_data self wids.

(** One round of the meta loop:
    [if query in doc_dict[3][m][0]:
       res[0, doc_dict[3][m][0][query]] +=
           np.array(doc_dict[3][m][1][query]) * meta_scale]. *)
Definition add_meta_score (sources : gmap string meta_source)
    (query : string) (meta_scale : R) (res : score_row) (m : string)
  : M score_row :=
  src ← dict_get sources m;
  match ms_positions src !! query with
  | None => mret res
  | Some positions =>
      cur ← row_get_many res positions;
      values ← dict_get (ms_values src) query;
      new ← broadcast_add cur ((λ v, Num (v * meta_scale)) <$> values);
      mret (row_set_many res positions new)
  end.

(** The "Add meta scores" block shared by [closest_docs] and
    [doc_scores]. *)
Definition add_meta_scores (self : TfidfDocRanker) (query : string)
    (meta : list string) (meta_scale : R) (res : score_row) : M score_row :=
  if decide (dd_len (doc_dict self) = 4) then
    match dd_sources (doc_dict self) with
    | Some sources => foldlM (add_meta_score sources query meta_scale) res meta
    | None => mret res
    end
  else mret res.

(** The boosted score row of a query: vectorise, multiply, boost. *)
Definition scored_row (self : TfidfDocRanker) (query : string)
    (meta : list string) (meta_scale : R) : M score_row :=
  spvec ← text2spvec self query;
  res ← csr_mul spvec (doc_mat self);
  add_meta_scores self query meta meta_scale res.

(** [res.indices] and [res.data], position by position. *)
Definition res_indices (res : score_row) : list nat :=
  (map_to_list (row_entries res)).*1.
Definition res_data (res : score_row) : list fval :=
  (map_to_list (row_entries res)).*2.

(** The position choice of [closest_docs]: all positions sorted by
    descending score when there are at most [k], else the [k] picked by
    the partition, sorted. *)
Definition top_positions (data : list fval) (k : Z) : M (list nat) :=
  if decide (Z.of_nat (length data) ≤ k)%Z then
    mret (argsort (fneg <$> data))
  else
    part ← np_argpartition (fneg <$> data) k;
    let o := slice_to part k in
    sub ← index_many data o;
    index_many o (argsort (fneg <$> sub)).

Definition closest_docs (self : TfidfDocRanker) (query : string)
    (meta : list string) (meta_scale : R) (k : Z)
  : M (list nat * list fval) :=
  res ← scored_row self query meta meta_scale;
  o_sort ← top_positions (res_data res) k;
  doc_scores ← index_many (res_data res) o_sort;
  doc_ids ← index_many (res_indices res) o_sort;
  mret (doc_ids, doc_scores).

Definition batch_closest_docs (self : TfidfDocRanker) (queries : list string)
    (meta : list string) (meta_scale : R) (k : Z) (num_workers : option Z)
    (clock : nat → nat) : M (list (list nat * list fval)) :=
  ThreadPool_map num_workers clock
    (λ q, closest_docs self q meta meta_scale k) queries.

Definition doc_scores (self : TfidfDocRanker)
    (query_doc : string * list nat) (meta : list string) (meta_scale : R)
  : M (list fval) :=
  let '(query, doc_idx) := query_doc in
  res ← scored_row self query meta meta_scale;
  row_get_many res doc_idx.

Definition batch_doc_scores (self : TfidfDocRanker) (queries : list string)
    (doc_idxs : list (list nat)) (meta : list string) (meta_scale : R)
    (num_workers : option Z) (clock : nat → nat) : M (list (list fval)) :=
  ThreadPool_map num_workers clock
    (λ qd, doc_scores self qd meta meta_scale) (zip queries doc_idxs).

End Ranker.

(** ** The weighting formula in the words of the specification *)

(** Term weight [tf_t = ln(1 + c_t)]. *)
Definition tf_weight (c : nat) : R := ln (1 + INR c).

(** [idf_t = ln((N - df_t + 0.5) / (df_t + 0.5))], clamped to 0 when
    negative. *)
Definition idf_weight (N df : nat) : R :=
  Rmax 0 (ln ((INR N - INR df + 0.5) / (INR df + 0.5))).

(** ** The scores in the words of the specification *)

(** The dot product of the query vector with the column of document [d]:
    the sum of [v * b] over every stored vector entry [(j, v)] and every
    stored matrix entry [(d, b)] of row [j]. *)
Definition dot_step (d : nat) (v : fval) (acc : fval) (kb : nat * R) : fval :=
  if decide (kb.1 = d) then fadd acc (fmul v (Num kb.2)) else acc.

Definition dot (sp : list (nat * fval)) (rows : list (list (nat * R)))
    (d : nat) : fval :=
  foldl (λ acc jv, foldl (dot_step d jv.2) acc (rows !!! jv.1)) fzero sp.

(** Document [d] shares a hashed feature with the query vector. *)
Definition shares_feature (sp : list (nat * fval))
    (rows : list (list (nat * R))) (d : nat) : Prop :=
  ∃ j v, (j, v) ∈ sp ∧ d ∈ (rows !!! j).*1.

(** The value of cell [d] of a score row, 0 when nothing is stored. *)
Definition cell (res : score_row) (d : nat) : fval :=
  default fzero (row_entries res !! d).

(** The new values written by one round of the meta loop. *)
Definition boosted_values (res : score_row) (positions : list nat)
    (values : list R) (meta_scale : R) : list fval :=
  zip_with fadd (cell res <$> positions)
           ((λ v, Num (v * meta_scale)) <$> values).

(** The value that goes with the last listing of [d] in [ps], the two
    lists being read side by side. *)
Fixpoint last_value {A} (d : nat) (ps : list nat) (xs : list A) : option A :=
  match ps, xs with
  | p :: ps', x :: xs' =>
      match last_value d ps' xs' with
      | Some y => Some y
      | None => if decide (p = d) then Some x else None
      end
  | _, _ => None
  end.

(** numpy broadcasting of the boost values against [n] listed positions:
    a single value stands for [n] copies of itself. *)
Definition broadcast_values (n : nat) (values : list R) : list R :=
  if decide (length values = n) then values
  else match values with
       | [v] => replicate n v
       | _ => values
       end.

(** The boost value that meta source [src] applies to document [d] under
    the key [query]: the value that goes with the last listing of [d] (a
    document listed twice under a key keeps what is written last), a
    single value standing for all listed documents; 0 when the key or the
    document is not listed. *)
Definition boost_of (src : meta_source) (query : string) (d : nat) : R :=
  match ms_positions src !! query, ms_values src !! query with
  | Some positions, Some values =>
      default 0%R
        (last_value d positions (broadcast_values (length positions) values))
  | _, _ => 0%R
  end.

(** The boost values of all requested sources for document [d], summed. *)
Definition total_boost (sources : gmap string meta_source) (query : string)
    (meta : list string) (d : nat) : R :=
  foldr (λ m acc, (from_option (λ src, boost_of src query d) 0 (sources !! m)
                   + acc)%R) 0%R meta.

(** Document [d] is listed under the key [query] by a requested source. *)
Definition listed (sources : gmap string meta_source) (query : string)
    (meta : list string) (d : nat) : Prop :=
  ∃ m src positions, m ∈ meta ∧ sources !! m = Some src ∧
    ms_positions src !! query = Some positions ∧ d ∈ positions.

(** A source entry that the boost assignment accepts on a row of [n]
    columns: in-range positions, and as many values as positions or a
    single value. *)
Definition source_ok (n : nat) (src : meta_source) (query : string) : Prop :=
  match ms_positions src !! query with
  | None => True
  | Some positions =>
      Forall (λ d, d < n) positions ∧
      ∃ values, ms_values src !! query = Some values ∧
                (length values = length positions ∨ length values = 1)
  end.

(** Every requested source is in the table, with an acceptable entry. *)
Definition meta_ok (n : nat) (sources : gmap string meta_source)
    (query : string) (meta : list string) : Prop :=
  Forall (λ m, ∃ src, sources !! m = Some src ∧ source_ok n src query) meta.

(** The boost that the "Add meta scores" block applies to document [d]:
    the summed boost values of the requested sources when [doc_dict] has
    four components, nothing otherwise. *)
Definition meta_boost (self : TfidfDocRanker) (query : string)
    (meta : list string) (d : nat) : R :=
  if decide (dd_len (doc_dict self) = 4) then
    match dd_sources (doc_dict self) with
    | Some sources => total_boost sources query meta d
    | None => 0%R
    end
  else 0%R.

(** The boosted score of document [d] for a query vector [sp]: the dot
    product plus [meta_scale] times the boost. *)
Definition boosted_score (self : TfidfDocRanker) (query : string)
    (meta : list string) (meta_scale : R) (sp : list (nat * fval))
    (d : nat) : fval :=
  fadd (dot sp (mat_rows (doc_mat self)) d)
       (Num (meta_boost self query meta d * meta_scale)).

(** No requested source applies a negative boost value to document [d]
    under the key [query]. *)
Definition boosts_nonneg (sources : gmap string meta_source) (query : string)
    (meta : list string) (d : nat) : Prop :=
  Forall (λ m, ∀ src, sources !! m = Some src →
                      (0 <= boost_of src query d)%R) meta.

(** Positions [o] re-ordered by an [argsort] of their values, as in
    [o[np.argsort(a[o])]]. *)
Definition subsort {np : NumpySort} (a : list fval) (o : list nat) : list nat :=
  (λ j, o !!! j) <$> argsort (gather a o).

(** "Descending by score" on (document, score) pairs, in numpy's order
    (a NaN score sorts last). *)
Definition by_score_desc (p q : nat * fval) : Prop :=
  np_le (fneg p.2) (fneg q.2).

(** The same on bare scores. *)
Definition score_desc (a b : fval) : Prop := np_le (fneg a) (fneg b).

(** Whenever the meta loop runs (four-component [doc_dict]), every
    requested source is in the table with an acceptable entry. *)
Definition tables_ok (self : TfidfDocRanker) (query : string)
    (meta : list string) : Prop :=
  dd_len (doc_dict self) = 4 →
  ∀ sources, dd_sources (doc_dict self) = Some sources →
             meta_ok (mat_ncols (doc_mat self)) sources query meta.

(** The load-time shape of an index: a [hash_size] of at least 2 (with a
    single bucket the squeezed document-frequency vector cannot be
    indexed) shared by the document-frequency vector and the rows of
    the matrix. *)
Definition index_ok (self : TfidfDocRanker) : Prop :=
  1 < hash_size self ∧
  length (doc_freqs self) = hash_size self ∧
  length (mat_rows (doc_mat self)) = hash_size self.



(** The column indices stored in the matrix are below its width. *)
Definition matrix_ok (B : csr_matrix) : Prop :=
  Forall (λ row, Forall (λ kb : nat * R, kb.1 < mat_ncols B) row) (mat_rows B).

(** The stored entries of a score row are below its width. *)
Definition row_in_range (res : score_row) : Prop :=
  ∀ d, is_Some (row_entries res !! d) → d < row_ncols res.

(** No document frequency exceeds the number of documents. *)
Definition freqs_ok (self : TfidfDocRanker) : Prop :=
  Forall (λ Nt, Nt ≤ num_docs self) (doc_freqs self).

(** Whenever the meta loop runs, every requested source is in the table
    and none has the raw query string as a key. *)
Definition no_boost (self : TfidfDocRanker) (query : string)
    (meta : list string) : Prop :=
  dd_len (doc_dict self) = 4 →
  ∀ sources, dd_sources (doc_dict self) = Some sources →
    Forall (λ m, ∃ src, sources !! m = Some src ∧
                        ms_positions src !! query = None) meta.

(** The id of every position maps back to that position, and the two
    tables of [doc_dict] have the same number of entries. *)
Definition ids_ok (self : TfidfDocRanker) : Prop :=
  (∀ i name, dd_idx2id (doc_dict self) !! i = Some name →
             dd_id2idx (doc_dict self) !! name = Some i) ∧
  num_docs self = length (dd_idx2id (doc_dict self)).

(** A number that is not negative. *)
Definition fnonneg (a : fval) : Prop :=
  match a with
  | Num x => (0 <= x)%R
  | NaN => False
  end.

(** A number above zero. *)
Definition fpositive (a : fval) : Prop :=
  match a with
  | Num x => (0 < x)%R
  | NaN => False
  end.

(** No stored value of the matrix is negative. *)
Definition matrix_nonneg (B : csr_matrix) : Prop :=
  Forall (λ row, Forall (λ kb : nat * R, (0 <= kb.2)%R) row) (mat_rows B).

(** ** Stand-ins for the collaborators

    Small executable collaborators used to run the ranker on concrete
    inputs: a whitespace tokenizer producing unigrams, a hash by word
    length, a normaliser that decomposes the one-letter string "e with
    acute accent" and leaves every other string alone, and a sort by
    merging. *)

Definition e_acute_composed : string :=
  String (Ascii.ascii_of_nat 195) (String (Ascii.ascii_of_nat 169) EmptyString).

Definition e_acute_decomposed : string :=
  String (Ascii.ascii_of_nat 101) (String (Ascii.ascii_of_nat 204)
                     (String (Ascii.ascii_of_nat 129) EmptyString)).

Definition example_normalize (s : string) : string :=
  if decide (s = e_acute_composed) then e_acute_decomposed else s.

Definition example_ngrams (n : nat) (s : string) : list string :=
  String.words s.

Definition example_hash (w : string) (n : nat) : nat := String.length w `mod` n.

Definition pair_le (p q : nat * fval) : Prop := np_le p.2 q.2.

Global Instance pair_le_dec p q : Decision (pair_le p q) := np_le_dec p.2 q.2.

Definition merge_argsort (a : list fval) : list nat :=
  (merge_sort pair_le (zip (seq 0 (length a)) a)).*1.

Definition merge_argpartition (a : list fval) (kth : nat) : list nat :=
  merge_argsort a.

(** ** Concrete indexes

    Two hashed buckets ([hash_size = 2]) and a two-row term-document
    matrix.  With the word-length hash a word of odd length, such as
    "covid", lands in bucket 1 and a word of even length in bucket 0,
    which no document contains. *)

Definition three_docs : gmap string nat :=
  {[ "d0" := 0; "d1" := 1; "d2" := 2 ]}.

Definition make_ranker (rows : list (list (nat * R))) (ncols : nat)
    (dfs : list nat) (dd : doc_dict_t) (strict : bool) : TfidfDocRanker :=
  {| doc_mat := {| mat_rows := rows; mat_ncols := ncols |};
     ngrams := 1; hash_size := 2; doc_freqs := dfs;
     doc_dict := dd; strict := strict |}.

(** Three documents, two of which contain bucket 1. *)
Definition common_term_ranker : TfidfDocRanker :=
  make_ranker [[]; [(0, 1%R); (1, 1%R)]] 3 [0; 2]
    (DocDict2 three_docs ["d0"; "d1"; "d2"]) true.

(** One document, but a document frequency of 2 for bucket 1. *)
Definition overcounted_ranker : TfidfDocRanker :=
  make_ranker [[]; [(0, 1%R)]] 1 [0; 2] (DocDict2 {[ "d0" := 0 ]} ["d0"]) true.

(** A four-component [doc_dict] over the three documents, with the given
    table of meta sources. *)
Definition with_sources (sources : gmap string meta_source) : doc_dict_t :=
  DocDict4 three_docs ["d0"; "d1"; "d2"] ∅ sources.

(** A source that lists, under the key "covid", document 2 with the boost
    value [v]. *)
Definition source_for_doc2 (v : R) : meta_source :=
  {| ms_positions := {[ "covid" := [2] ]};
     ms_values := {[ "covid" := [v] ]} |}.

(** The common-term index with the meta source "covidex" boosting
    document 2 by 5. *)
Definition boosted_ranker : TfidfDocRanker :=
  make_ranker [[]; [(0, 1%R); (1, 1%R)]] 3 [0; 2]
    (with_sources {[ "covidex" := source_for_doc2 5 ]}) true.

(** The same with a negative boost value. *)
Definition penalised_ranker : TfidfDocRanker :=
  make_ranker [[]; [(0, 1%R); (1, 1%R)]] 3 [0; 2]
    (with_sources {[ "covidex" := source_for_doc2 (-1) ]}) true.

(** The same with a table that only knows the source "cord". *)
Definition other_source_ranker : TfidfDocRanker :=
  make_ranker [[]; [(0, 1%R); (1, 1%R)]] 3 [0; 2]
    (with_sources {[ "cord" := source_for_doc2 5 ]}) true.

(** The common-term index in non-strict mode. *)
Definition lenient_ranker : TfidfDocRanker :=
  make_ranker [[]; [(0, 1%R); (1, 1%R)]] 3 [0; 2]
    (DocDict2 three_docs ["d0"; "d1"; "d2"]) false.

(** Three documents, one of which contains bucket 1. *)
Definition rare_term_ranker : TfidfDocRanker :=
  make_ranker [[]; [(0, 1%R)]] 3 [0; 1]
    (DocDict2 three_docs ["d0"; "d1"; "d2"]) true.

(** A source that lists documents 0 and 2 under the key "covid", with the
    single boost value 5 for both. *)
Definition source_broadcast : meta_source :=
  {| ms_positions := {[ "covid" := [0; 2] ]};
     ms_values := {[ "covid" := [5%R] ]} |}.

Definition broadcast_ranker : TfidfDocRanker :=
  make_ranker [[]; [(0, 1%R); (1, 1%R)]] 3 [0; 2]
    (with_sources {[ "covidex" := source_broadcast ]}) true.

(** A source that lists document 2 twice under the key "covid", with the
    boost values 5 and 7. *)
Definition source_relisted : meta_source :=
  {| ms_positions := {[ "covid" := [2; 2] ]};
     ms_values := {[ "covid" := [5%R; 7%R] ]} |}.

Definition relisted_ranker : TfidfDocRanker :=
  make_ranker [[]; [(0, 1%R); (1, 1%R)]] 3 [0; 2]
    (with_sources {[ "covidex" := source_relisted ]}) true.

(** A source that lists documents 0 and 2 under the key "covid", with the
    boost values 5 and 7. *)
Definition source_two_docs : meta_source :=
  {| ms_positions := {[ "covid" := [0; 2] ]};
     ms_values := {[ "covid" := [5%R; 7%R] ]} |}.

Definition two_boosts_ranker : TfidfDocRanker :=
  make_ranker [[]; [(0, 1%R); (1, 1%R)]] 3 [0; 2]
    (with_sources {[ "covidex" := source_two_docs ]}) true.



(** * Properties *)

(** ** The exception monad *)

Lemma returns_ret {A} (x y : A) : returns (mret x) y ↔ x = y.
Proof. unfold returns; simpl. split; [by intros [= ->]|by intros ->]. Qed.

Lemma returns_bind {A B} (c : M A) (f : A → M B) (y : B) :
  returns (c ≫= f) y ↔ ∃ x, returns c x ∧ returns (f x) y.
Proof.
  unfold returns, mbind, M_bind. destruct (outcome c) as [e|x]; simpl.
  - split; [done|]. by intros (x & ? & _).
  - split; [by exists x|]. by intros (x' & [= <-] & ?).
Qed.

Lemma raises_bind {A B} (c : M A) (f : A → M B) (e : exn) :
  raises (c ≫= f) e ↔ raises c e ∨ ∃ x, returns c x ∧ raises (f x) e.
Proof.
  unfold raises, returns, mbind, M_bind. destruct (outcome c) as [e'|x]; simpl.
  - split; [intros [= ->]; by left|]. intros [[= ->]|(x & ? & _)]; done.
  - split; [intros; right; by exists x|]. intros [?|(x' & [= <-] & ?)]; done.
Qed.

Lemma returns_raises {A} (c : M A) x e : returns c x → raises c e → False.
Proof. unfold returns, raises. congruence. Qed.

Lemma returns_or_raises {A} (c : M A) : (∃ x, returns c x) ∨ (∃ e, raises c e).
Proof.
  unfold returns, raises. destruct (outcome c) as [e|x]; [right|left]; eauto.
Qed.

Lemma returns_inj {A} (c : M A) x y : returns c x → returns c y → x = y.
Proof. unfold returns. congruence. Qed.

Lemma returns_mapM {A B} (f : A → M B) (l : list A) (k : list B) :
  returns (mapM f l) k ↔ Forall2 (λ x y, returns (f x) y) l k.
Proof.
  revert k. induction l as [|x l IH]; intros k; simpl.
  - rewrite returns_ret. split; [intros <-; constructor|by inversion 1].
  - rewrite returns_bind. split.
    + intros (y & Hy & Hk). apply returns_bind in Hk as (k' & Hk' & Hr).
      apply returns_ret in Hr as <-. constructor; [done|by apply IH].
    + inversion 1 as [|? y ? k' Hy Hk']; subst. exists y. split; [done|].
      apply returns_bind. exists k'. split; [by apply IH|by apply returns_ret].
Qed.

Lemma raises_mapM {A B} (f : A → M B) (l : list A) (e : exn) :
  raises (mapM f l) e → ∃ x, x ∈ l ∧ raises (f x) e.
Proof.
  induction l as [|x l IH]; simpl; [done|].
  rewrite raises_bind. intros [?|(y & _ & Hr)].
  - exists x. split; [left|done].
  - apply raises_bind in Hr as [Hr|(k & _ & ?)]; [|done].
    destruct (IH Hr) as (x' & ? & ?). exists x'. split; [by right|done].
Qed.

Lemma mapM_total {A B} (f : A → M B) (l : list A) :
  (∀ x, x ∈ l → ∃ y, returns (f x) y) → ∃ k, returns (mapM f l) k.
Proof.
  induction l as [|x l IH]; intros Hf.
  - exists []. by apply returns_mapM.
  - destruct (Hf x) as [y Hy]; [left|].
    destruct IH as [k Hk]; [intros; apply Hf; by right|].
    exists (y :: k). apply returns_mapM. constructor; [done|by apply returns_mapM].
Qed.

Lemma returns_list_get {A} (a : list A) i x :
  returns (list_get a i) x ↔ a !! i = Some x.
Proof.
  unfold list_get. destruct (a !! i); [rewrite returns_ret|]; [naive_solver|done].
Qed.

Lemma returns_index_many {A} (a : list A) (o : list nat) (k : list A) :
  returns (index_many a o) k ↔ Forall2 (λ i x, a !! i = Some x) o k.
Proof.
  unfold index_many. rewrite returns_mapM.
  split; intros Hk; eapply Forall2_impl; try exact Hk; intros ??;
    by rewrite returns_list_get.
Qed.

Lemma index_many_total {A} (a : list A) (o : list nat) :
  Forall (λ i, i < length a) o → ∃ k, returns (index_many a o) k.
Proof.
  intros Ho. apply mapM_total. intros i Hi.
  rewrite Forall_forall in Ho. destruct (lookup_lt_is_Some_2 a i (Ho i Hi)) as [x Hx].
  exists x. by apply returns_list_get.
Qed.

Lemma returns_dict_get `{Countable K} {V} (d : gmap K V) k v :
  returns (dict_get d k) v ↔ d !! k = Some v.
Proof.
  unfold dict_get. destruct (d !! k) as [v'|]; [rewrite returns_ret|done].
  split; [by intros ->|by intros [= ->]].
Qed.

Lemma raises_dict_get `{Countable K} {V} (d : gmap K V) k e :
  raises (dict_get d k) e ↔ d !! k = None ∧ e = KeyError.
Proof.
  unfold dict_get, raises. destruct (d !! k); simpl.
  - split; [done|by intros [? _]].
  - split; [by intros [= <-]|by intros [_ ->]].
Qed.

(** ** The sort order on floats *)

Global Instance np_le_refl : Reflexive np_le.
Proof. intros [x|]; simpl; [lra|done]. Qed.

Global Instance np_le_trans : Transitive np_le.
Proof. intros [x|] [y|] [z|]; simpl; try done; lra. Qed.

Global Instance np_le_total : Total np_le.
Proof. intros [x|] [y|]; simpl; try tauto. lra. Qed.

Global Instance np_le_antisymm : AntiSymm (=) np_le.
Proof.
  intros [x|] [y|]; simpl; try done. intros. f_equal. lra.
Qed.

Lemma fadd_zero_r a : fadd a (Num 0) = a.
Proof. destruct a as [x|]; simpl; [|done]. f_equal. lra. Qed.

Lemma fadd_assoc a b c : fadd (fadd a b) c = fadd a (fadd b c).
Proof. destruct a, b, c; simpl; try done. f_equal. lra. Qed.

Lemma fadd_Num_Num a x y : fadd (fadd a (Num x)) (Num y) = fadd a (Num (x + y)).
Proof. by rewrite fadd_assoc. Qed.

(** On numbers the sort order of the negated values is "descending". *)
Lemma np_le_fneg_fge a b :
  is_finite a → is_finite b → np_le (fneg a) (fneg b) ↔ fge a b.
Proof. destruct a, b; simpl; try done. intros _ _. lra. Qed.

(** ** The IDF formula *)

Lemma idf_ratio_pos (N Nt : nat) :
  Nt ≤ N → (0 < (INR N - INR Nt + 0.5) / (INR Nt + 0.5))%R.
Proof.
  intros Hle. apply le_INR in Hle. pose proof (pos_INR Nt).
  apply Rdiv_lt_0_compat; lra.
Qed.

Lemma idf_ratio_neg (N Nt : nat) :
  N < Nt → ((INR N - INR Nt + 0.5) / (INR Nt + 0.5) < 0)%R.
Proof.
  intros Hlt. apply Nat.le_succ_l, le_INR in Hlt. rewrite S_INR in Hlt.
  pose proof (pos_INR Nt).
  assert (0 < / (INR Nt + 0.5))%R by (apply Rinv_0_lt_compat; lra).
  unfold Rdiv. nra.
Qed.

Lemma idf_in_range (N Nt : nat) :
  Nt ≤ N →
  idf N Nt = Num (Rmax 0 (ln ((INR N - INR Nt + 0.5) / (INR Nt + 0.5)))).
Proof.
  intros Hle. unfold idf, np_log.
  destruct (Rlt_dec _ _) as [_|Hn]; [|destruct Hn; by apply idf_ratio_pos].
  simpl. destruct (Rlt_dec _ _) as [Hneg|Hpos]; f_equal.
  - rewrite Rmax_left; lra.
  - rewrite Rmax_right; lra.
Qed.

Lemma idf_out_of_range (N Nt : nat) : N < Nt → idf N Nt = NaN.
Proof.
  intros Hlt. apply idf_ratio_neg in Hlt. unfold idf, np_log.
  destruct (Rlt_dec _ _) as [?|_]; [lra|].
  destruct (Req_dec_T _ _) as [?|_]; [lra|done].
Qed.

(** The clamp bites exactly when at least half of the corpus has the
    feature. *)
Lemma idf_zero (N Nt : nat) : Nt ≤ N → N ≤ 2 * Nt → idf N Nt = Num 0.
Proof.
  intros Hle Hhalf. rewrite idf_in_range by done. f_equal.
  apply Rmax_left. rewrite <-ln_1.
  pose proof (idf_ratio_pos N Nt Hle) as Hpos.
  apply le_INR in Hhalf. rewrite mult_INR in Hhalf. simpl in Hhalf.
  pose proof (pos_INR Nt).
  assert ((INR N - INR Nt + 0.5) / (INR Nt + 0.5) <= 1)%R as Hr.
  { apply Rmult_le_reg_r with (INR Nt + 0.5)%R; [lra|].
    unfold Rdiv. rewrite Rmult_assoc, Rinv_l; lra. }
  destruct Hr as [Hr|Hr]; [left; by apply ln_increasing|rewrite Hr; lra].
Qed.

(** ** [np.unique] *)

Lemma np_unique_fst wids :
  (np_unique wids).*1 = merge_sort (≤) (remove_dups wids).
Proof.
  unfold np_unique. rewrite <-list_fmap_compose. apply list_fmap_id.
Qed.

Lemma np_unique_snd wids :
  (np_unique wids).*2 =
  (λ t, occurrences t wids) <$> merge_sort (≤) (remove_dups wids).
Proof. unfold np_unique. by rewrite <-list_fmap_compose. Qed.

Lemma elem_of_np_unique_fst wids t : t ∈ (np_unique wids).*1 ↔ t ∈ wids.
Proof.
  by rewrite np_unique_fst, merge_sort_Permutation, elem_of_remove_dups.
Qed.

Lemma NoDup_np_unique_fst wids : NoDup (np_unique wids).*1.
Proof.
  rewrite np_unique_fst, merge_sort_Permutation. apply NoDup_remove_dups.
Qed.

(** ** The query vectoriser *)

Lemma index_many_eq {A} (a : list A) (o : list nat) (k : list A) :
  Forall2 (λ i x, a !! i = Some x) o k → index_many a o = mret k.
Proof.
  unfold index_many. induction 1 as [|i x o k Hi _ IH]; simpl; [done|].
  rewrite IH. unfold list_get. by rewrite Hi.
Qed.

Lemma index_many_in_range {A} (a : list A) (o : list nat) :
  Forall (λ i, i < length a) o →
  ∃ k, index_many a o = mret k ∧ Forall2 (λ i x, a !! i = Some x) o k.
Proof.
  intros Ho. destruct (index_many_total a o Ho) as [k Hk].
  apply returns_index_many in Hk. exists k. split; [by apply index_many_eq|done].
Qed.

Section Vectoriser.
Context {tools : TextTools}.

Lemma query_wids_range self query :
  0 < hash_size self → Forall (λ t, t < hash_size self) (query_wids self query).
Proof.
  intros Hpos. unfold query_wids. apply Forall_fmap, Forall_forall.
  intros w _. by apply hash_range.
Qed.

Lemma returns_freqs_at self wids Ns :
  returns (freqs_at self wids) Ns →
  length (doc_freqs self) ≠ 1 ∧ returns (index_many (doc_freqs self) wids) Ns.
Proof. unfold freqs_at. by case_decide. Qed.

Lemma freqs_at_squeezed self wids :
  length (doc_freqs self) = 1 → freqs_at self wids = raise IndexError.
Proof. intros E. unfold freqs_at. by rewrite decide_True. Qed.

Lemma tfidf_data_eq self wids :
  length (doc_freqs self) ≠ 1 →
  Forall (λ t, t < length (doc_freqs self)) wids →
  ∃ Ns, Forall2 (λ t Nt, doc_freqs self !! t = Some Nt) (np_unique wids).*1 Ns ∧
    tfidf_data self wids =
    mret (zip_with fmul (np_log1p <$> (np_unique wids).*2)
                        (idf (num_docs self) <$> Ns),
          (np_unique wids).*1).
Proof.
  intros Hsq Hr. unfold tfidf_data, freqs_at. rewrite decide_False by done.
  destruct (index_many_in_range (doc_freqs self) (np_unique wids).*1)
    as (Ns & E & HNs).
  { apply Forall_forall. intros t Ht. rewrite elem_of_np_unique_fst in Ht.
    rewrite Forall_forall in Hr. by apply Hr. }
  exists Ns. split; [done|]. by rewrite E.
Qed.

End Vectoriser.

Section VectoriserWeights.
Context {tools : TextTools}.

Lemma text2spvec_nonempty self query :
  query_wids self query ≠ [] →
  1 < hash_size self →
  length (doc_freqs self) = hash_size self →
  ∃ Ns,
    Forall2 (λ t Nt, doc_freqs self !! t = Some Nt)
            (np_unique (query_wids self query)).*1 Ns ∧
    text2spvec self query =
    mret {| sv_ncols := hash_size self;
            sv_entries :=
              zip (np_unique (query_wids self query)).*1
                  (zip_with fmul
                     (np_log1p <$> (np_unique (query_wids self query)).*2)
                     (idf (num_docs self) <$> Ns)) |}.
Proof.
  intros Hne Hpos Hlen. unfold text2spvec.
  destruct (decide (length (query_wids self query) = 0)) as [E|_].
  { by apply nil_length_inv in E. }
  destruct (tfidf_data_eq self (query_wids self query)) as (Ns & HNs & E).
  { lia. }
  { rewrite Hlen. apply query_wids_range. lia. }
  exists Ns. split; [done|]. by rewrite E.
Qed.

Lemma tfidf_in_range (c N Nt : nat) :
  Nt ≤ N → fmul (np_log1p c) (idf N Nt) = Num (tf_weight c * idf_weight N Nt).
Proof. intros Hle. by rewrite idf_in_range. Qed.

Lemma tfidf_out_of_range (c N Nt : nat) :
  N < Nt → fmul (np_log1p c) (idf N Nt) = NaN.
Proof. intros Hlt. by rewrite idf_out_of_range. Qed.

Lemma idf_weight_nonneg (N Nt : nat) : (0 <= idf_weight N Nt)%R.
Proof. unfold idf_weight. apply Rmax_l. Qed.

(** C1, as amended.  On an index with at least two hashed buckets and a
    document-frequency vector of that length (with a single bucket the
    squeezed vector is 0-dimensional and the lookup stops with an
    [IndexError]), a query with at least one hashed n-gram is turned
    into a vector of dimension [hash_size] whose stored entries sit exactly
    at the distinct bucket ids.  The entry of bucket [t], seen [c_t] times,
    with document frequency [df_t <= N], is [tf_t * idf_t] with
    [tf_t = ln(1 + c_t)] and [idf_t = ln((N - df_t + 0.5) / (df_t + 0.5))]
    clamped to 0 when negative, so the idf factor is never negative and the
    entry may be a stored zero.  For [df_t > N] the logarithm has a
    negative argument, nothing is clamped and the entry is NaN. *)
Theorem text2spvec_weights self query :
  query_wids self query ≠ [] →
  1 < hash_size self →
  length (doc_freqs self) = hash_size self →
  ∃ v, text2spvec self query = mret v ∧
    sv_ncols v = hash_size self ∧
    NoDup (sv_entries v).*1 ∧
    (∀ t, t ∈ (sv_entries v).*1 ↔ t ∈ query_wids self query) ∧
    ∀ t w, (t, w) ∈ sv_entries v →
      ∃ Nt, doc_freqs self !! t = Some Nt ∧
        (Nt ≤ num_docs self →
           w = Num (tf_weight (occurrences t (query_wids self query))
                    * idf_weight (num_docs self) Nt) ∧
           (0 <= idf_weight (num_docs self) Nt)%R) ∧
        (num_docs self < Nt → w = NaN).
Proof.
  intros Hne Hpos Hlen.
  destruct (text2spvec_nonempty self query Hne Hpos Hlen) as (Ns & HNs & E).
  eexists. split; [exact E|]. simpl.
  set (wids := query_wids self query) in *.
  assert (length (np_unique wids).*1 = length Ns) as HlenNs
    by (by eapply Forall2_length).
  assert (length (np_unique wids).*1 = length (np_unique wids).*2) as Hlen12
    by (by rewrite !length_fmap).
  rewrite fst_zip
    by (rewrite length_zip_with, !length_fmap; rewrite !length_fmap in *; lia).
  split; [done|]. split; [apply NoDup_np_unique_fst|].
  split; [apply elem_of_np_unique_fst|].
  intros t w Hin. apply list_elem_of_lookup in Hin as [i Hi].
  apply lookup_zip_with_Some in Hi as (t' & w' & [= <- <-] & Ht & Hw).
  apply lookup_zip_with_Some in Hw as (tf & idfv & -> & Htf & Hidf).
  destruct (Forall2_lookup_l _ _ _ _ _ HNs Ht) as (Nt & HNt & Hdf).
  rewrite list_lookup_fmap, HNt in Hidf. injection Hidf as <-.
  rewrite list_lookup_fmap, np_unique_snd, list_lookup_fmap in Htf.
  rewrite np_unique_fst in Ht. rewrite Ht in Htf. injection Htf as <-.
  exists Nt. split; [done|]. split.
  - intros Hle. split; [by apply tfidf_in_range|apply idf_weight_nonneg].
  - apply tfidf_out_of_range.
Qed.

End VectoriserWeights.

(** ** The stand-in collaborators meet their contracts *)

Lemma example_hash_range w n : 0 < n → example_hash w n < n.
Proof. intros Hn. unfold example_hash. apply Nat.mod_upper_bound. lia. Qed.

Definition example_tools : TextTools :=
  {| normalize := example_normalize;
     ngrams_of := example_ngrams;
     hash := example_hash;
     hash_range := example_hash_range |}.

Global Instance pair_le_trans : Transitive pair_le.
Proof. intros p q r. unfold pair_le. apply np_le_trans. Qed.

Global Instance pair_le_total : Total pair_le.
Proof. intros p q. unfold pair_le. apply np_le_total. Qed.

Lemma gather_pairs (a : list fval) (l : list (nat * fval)) :
  Forall (λ p, a !! p.1 = Some p.2) l → gather a l.*1 = l.*2.
Proof.
  unfold gather. induction 1 as [|p l Hp _ IH]; csimpl; [done|].
  rewrite IH. f_equal. by apply list_lookup_total_correct.
Qed.

Lemma zip_seq_lookup (a : list fval) :
  Forall (λ p, a !! p.1 = Some p.2) (zip (seq 0 (length a)) a).
Proof.
  apply Forall_forall. intros [i x] Hin.
  apply list_elem_of_lookup in Hin as [j Hj].
  apply lookup_zip_with_Some in Hj as (i' & x' & [= <- <-] & Hi & Hx).
  apply lookup_seq in Hi as [-> _]. done.
Qed.

Lemma merge_argsort_gather (a : list fval) :
  gather a (merge_argsort a) =
  (merge_sort pair_le (zip (seq 0 (length a)) a)).*2.
Proof.
  unfold merge_argsort. apply gather_pairs.
  rewrite merge_sort_Permutation. apply zip_seq_lookup.
Qed.

Lemma merge_argsort_perm a : merge_argsort a ≡ₚ seq 0 (length a).
Proof.
  unfold merge_argsort. rewrite merge_sort_Permutation.
  by rewrite fst_zip by (by rewrite length_seq).
Qed.

Lemma merge_argsort_sorted a : StronglySorted np_le (gather a (merge_argsort a)).
Proof.
  rewrite merge_argsort_gather.
  apply (StronglySorted_fmap snd pair_le np_le); [done|].
  apply StronglySorted_merge_sort; apply _.
Qed.

Lemma merge_argpartition_pivot a kth :
  kth < length a →
  ∀ x y, x ∈ take kth (gather a (merge_argpartition a kth)) →
         y ∈ drop kth (gather a (merge_argpartition a kth)) → np_le x y.
Proof.
  intros _ x y Hx Hy. unfold merge_argpartition in *.
  eapply (StronglySorted_app_1_elem_of np_le); [|exact Hx|exact Hy].
  rewrite take_drop. apply merge_argsort_sorted.
Qed.

Definition example_sort : NumpySort :=
  {| argsort := merge_argsort;
     argpartition := merge_argpartition;
     argsort_perm := merge_argsort_perm;
     argsort_sorted := merge_argsort_sorted;
     argpartition_perm := λ a kth _, merge_argsort_perm a;
     argpartition_pivot := merge_argpartition_pivot |}.

(** ** The vectoriser on the concrete indexes *)

Lemma text2spvec_one_bucket (self : TfidfDocRanker) (query : string)
    (N0 Nt : nat) :
  query_wids (tools := example_tools) self query = [1] →
  hash_size self = 2 → doc_freqs self = [N0; Nt] →
  text2spvec (tools := example_tools) self query =
  mret {| sv_ncols := 2;
          sv_entries := [(1, fmul (np_log1p 1) (idf (num_docs self) Nt))] |}.
Proof.
  intros Hw Hh Hdf.
  destruct (text2spvec_nonempty (tools := example_tools) self query)
    as (Ns & HNs & E); [by rewrite Hw|lia|by rewrite Hdf, Hh|].
  rewrite E, Hw, Hh, Hdf in *. clear E.
  change (np_unique [1]) with [(1, 1)] in *. simpl in HNs.
  apply Forall2_cons_inv_l in HNs as (N' & Ns' & [= <-] & ->%Forall2_nil_inv_l & ->).
  done.
Qed.

(** C1 fails as stated: with three documents of which two contain the
    bucket of the query word, the entry stored at that bucket id is zero;
    and with a document frequency above the number of documents the entry
    is NaN, not a clamped logarithm. *)
Lemma text2spvec_zero_and_nan_entries :
  text2spvec (tools := example_tools) common_term_ranker "covid" =
    mret {| sv_ncols := 2; sv_entries := [(1, Num 0)] |} ∧
  text2spvec (tools := example_tools) overcounted_ranker "covid" =
    mret {| sv_ncols := 2; sv_entries := [(1, NaN)] |}.
Proof.
  split.
  - rewrite (text2spvec_one_bucket _ _ 0 2) by done.
    change (num_docs common_term_ranker) with 3.
    rewrite idf_zero by lia. simpl. by rewrite Rmult_0_r.
  - rewrite (text2spvec_one_bucket _ _ 0 2) by done.
    change (num_docs overcounted_ranker) with 1.
    by rewrite idf_out_of_range by lia.
Qed.

(** A run of [text2spvec_weights]. *)
Lemma text2spvec_weights_witness :
  query_wids (tools := example_tools) common_term_ranker "covid" ≠ [] ∧
  1 < hash_size common_term_ranker ∧
  length (doc_freqs common_term_ranker) = hash_size common_term_ranker ∧
  ∃ v, text2spvec (tools := example_tools) common_term_ranker "covid" = mret v ∧
       sv_ncols v = 2.
Proof.
  assert (query_wids (tools := example_tools) common_term_ranker "covid" ≠ [])
    as H1 by done.
  assert (1 < hash_size common_term_ranker) as H2 by (simpl; lia).
  assert (length (doc_freqs common_term_ranker) = hash_size common_term_ranker)
    as H3 by done.
  destruct (text2spvec_weights (tools := example_tools)
              common_term_ranker "covid" H1 H2 H3) as (v & E & Hn & _).
  repeat split; try done. by exists v.
Defined.

(** ** The sparse product *)

Lemma sums_add_lookup sums k x d :
  default fzero (sums_add sums k x !! d) =
  if decide (k = d) then fadd (default fzero (sums !! d)) x
  else default fzero (sums !! d).
Proof.
  unfold sums_add. case_decide as E.
  - subst. by rewrite lookup_insert_eq.
  - by rewrite lookup_insert_ne.
Qed.

Lemma sums_add_dom sums k x d :
  is_Some (sums_add sums k x !! d) ↔ k = d ∨ is_Some (sums !! d).
Proof.
  unfold sums_add. destruct (decide (k = d)) as [->|E].
  - rewrite lookup_insert_eq. split; [by left|by eauto].
  - rewrite lookup_insert_ne by done. split; [by right|by intros [?|?]].
Qed.

Lemma accumulate_row_lookup v brow sums d :
  default fzero (accumulate_row v brow sums !! d) =
  foldl (dot_step d v) (default fzero (sums !! d)) brow.
Proof.
  unfold accumulate_row. revert sums.
  induction brow as [|[k b] brow IH]; intros sums; cbn [foldl]; [done|].
  rewrite IH, sums_add_lookup. f_equal.
Qed.

Lemma accumulate_row_dom v brow sums d :
  is_Some (accumulate_row v brow sums !! d) ↔
  d ∈ brow.*1 ∨ is_Some (sums !! d).
Proof.
  unfold accumulate_row. revert sums.
  induction brow as [|[k b] brow IH]; intros sums; cbn [foldl fmap list_fmap].
  - rewrite elem_of_nil. tauto.
  - rewrite IH, sums_add_dom, elem_of_cons. simpl. naive_solver.
Qed.

Lemma accumulate_from_lookup (sp : list (nat * fval))
    (rows : list (list (nat * R))) (sums : gmap nat fval) d :
  default fzero
    (foldl (λ s jv, accumulate_row jv.2 (rows !!! jv.1) s) sums sp !! d) =
  foldl (λ acc jv, foldl (dot_step d jv.2) acc (rows !!! jv.1))
        (default fzero (sums !! d)) sp.
Proof.
  revert sums. induction sp as [|[j v] sp IH]; intros sums; cbn [foldl]; [done|].
  by rewrite IH, accumulate_row_lookup.
Qed.

Lemma accumulate_from_dom (sp : list (nat * fval))
    (rows : list (list (nat * R))) (sums : gmap nat fval) d :
  is_Some (foldl (λ s jv, accumulate_row jv.2 (rows !!! jv.1) s) sums sp !! d) ↔
  shares_feature sp rows d ∨ is_Some (sums !! d).
Proof.
  unfold shares_feature. revert sums.
  induction sp as [|[j v] sp IH]; intros sums; cbn [foldl].
  - split; [by right|]. intros [(j & v & Hin & _)|?]; [|done].
    by apply elem_of_nil in Hin.
  - rewrite IH, accumulate_row_dom. split.
    + intros [(j' & v' & Hin & Hd)|[Hd|?]]; [| |by right].
      * left. exists j', v'. split; [by right|done].
      * left. exists j, v. split; [by left|done].
    + intros [(j' & v' & Hin & Hd)|?]; [|by right; right].
      apply elem_of_cons in Hin as [[= -> ->]|Hin]; [by right; left|].
      left. by exists j', v'.
Qed.

Lemma accumulate_lookup sp rows d :
  default fzero (accumulate sp rows !! d) = dot sp rows d.
Proof. unfold accumulate, dot. by rewrite accumulate_from_lookup, lookup_empty. Qed.

Lemma accumulate_dom sp rows d :
  is_Some (accumulate sp rows !! d) ↔ shares_feature sp rows d.
Proof.
  unfold accumulate. rewrite accumulate_from_dom, lookup_empty.
  split; [intros [?|[? ?]]; done|by left].
Qed.

(** Without a shared feature the dot product is 0. *)
Lemma dot_no_shared_feature sp rows d :
  ¬ shares_feature sp rows d → dot sp rows d = fzero.
Proof.
  intros Hn. rewrite <-accumulate_lookup.
  destruct (accumulate sp rows !! d) eqn:E; [|done].
  destruct Hn. apply accumulate_dom. by rewrite E.
Qed.

Lemma returns_csr_mul spvec B res :
  returns (csr_mul spvec B) res ↔
  sv_ncols spvec = length (mat_rows B) ∧
  res = {| row_ncols := mat_ncols B;
           row_entries := filter (λ kv, fnonzero kv.2)
                            (accumulate (sv_entries spvec) (mat_rows B)) |}.
Proof.
  unfold csr_mul. case_decide.
  - rewrite returns_ret. naive_solver.
  - split; [done|]. by intros [? _].
Qed.

(** The stored entries of [spvec * doc_mat] are the columns whose dot
    product with the vector is not 0, each with that dot product. *)
Lemma csr_mul_entries spvec B res d s :
  returns (csr_mul spvec B) res →
  row_entries res !! d = Some s ↔
  s = dot (sv_entries spvec) (mat_rows B) d ∧ fnonzero s.
Proof.
  intros (_ & ->)%returns_csr_mul. simpl.
  rewrite map_lookup_filter_Some. simpl.
  rewrite <-accumulate_lookup. split.
  - intros [E Hnz]. by rewrite E.
  - intros [-> Hnz]. split; [|done].
    destruct (accumulate _ _ !! d) eqn:E; [done|].
    simpl in Hnz. by destruct Hnz.
Qed.

Lemma csr_mul_ncols spvec B res :
  returns (csr_mul spvec B) res → row_ncols res = mat_ncols B.
Proof. by intros (_ & ->)%returns_csr_mul. Qed.

Lemma csr_mul_cell spvec B res d :
  returns (csr_mul spvec B) res →
  cell res d = dot (sv_entries spvec) (mat_rows B) d.
Proof.
  intros Hr. unfold cell.
  destruct (row_entries res !! d) as [s|] eqn:E; simpl.
  - by apply (csr_mul_entries _ _ _ _ _ Hr) in E as [-> _].
  - destruct (decide (fnonzero (dot (sv_entries spvec) (mat_rows B) d)))
      as [Hnz|Hz].
    + assert (row_entries res !! d = Some (dot (sv_entries spvec) (mat_rows B) d))
        as E' by (by apply (csr_mul_entries _ _ _ _ _ Hr)).
      congruence.
    + destruct (dot _ _ d) as [x|]; simpl in *; [|by destruct Hz].
      unfold fzero. f_equal. destruct (Req_dec_T x 0); [done|by destruct Hz].
Qed.

(** ** Assigning to the score row *)

Lemma ret_bind {A B} (x : A) (f : A → M B) : mret x ≫= f = f x.
Proof. unfold mbind, M_bind, mret, M_ret. simpl. by destruct (f x). Qed.

Lemma foldl_insert_notin (m : gmap nat fval) (l : list (nat * fval)) d :
  d ∉ l.*1 → foldl (λ m ix, <[ix.1 := ix.2]> m) m l !! d = m !! d.
Proof.
  revert m. induction l as [|[k y] l IH]; intros m Hd; cbn [foldl]; [done|].
  rewrite fmap_cons, not_elem_of_cons in Hd. destruct Hd as [Hk Hd].
  rewrite IH by done. simpl. by rewrite lookup_insert_ne.
Qed.

Lemma foldl_insert_dom (m : gmap nat fval) (l : list (nat * fval)) d :
  is_Some (foldl (λ m ix, <[ix.1 := ix.2]> m) m l !! d) ↔
  d ∈ l.*1 ∨ is_Some (m !! d).
Proof.
  revert m. induction l as [|[k y] l IH]; intros m; cbn [foldl].
  - rewrite fmap_nil, elem_of_nil. tauto.
  - rewrite IH, fmap_cons, elem_of_cons. simpl.
    destruct (decide (k = d)) as [->|E].
    + rewrite lookup_insert_eq. naive_solver.
    + rewrite lookup_insert_ne by done. naive_solver.
Qed.

Lemma row_get_eq res i :
  i < row_ncols res → row_get res i = mret (cell res i).
Proof. intros Hi. unfold row_get. by rewrite decide_True. Qed.

Lemma row_get_many_eq res idxs :
  Forall (λ i, i < row_ncols res) idxs →
  row_get_many res idxs = mret (cell res <$> idxs).
Proof.
  unfold row_get_many. induction 1 as [|i idxs Hi _ IH]; [done|].
  cbn [mapM]. rewrite row_get_eq by done. rewrite ret_bind, IH.
  by rewrite ret_bind.
Qed.

Lemma add_meta_score_missing sources query meta_scale res m :
  sources !! m = None →
  add_meta_score sources query meta_scale res m = raise KeyError.
Proof. intros E. unfold add_meta_score, dict_get. by rewrite E. Qed.

Lemma add_meta_score_no_key sources query meta_scale res m src :
  sources !! m = Some src → ms_positions src !! query = None →
  add_meta_score sources query meta_scale res m = mret res.
Proof.
  intros E1 E2. unfold add_meta_score, dict_get.
  by rewrite E1, ret_bind, E2.
Qed.

Lemma broadcast_values_length n values :
  length values = n ∨ length values = 1 →
  length (broadcast_values n values) = n.
Proof.
  unfold broadcast_values. case_decide; [done|]. intros [?|Hl]; [done|].
  destruct values as [|v [|??]]; try done. by rewrite length_replicate.
Qed.

Lemma fmap_fadd_replicate (cur : list fval) x :
  (λ c, fadd c x) <$> cur = zip_with fadd cur (replicate (length cur) x).
Proof. induction cur as [|c cur IH]; [done|]. csimpl. by rewrite IH. Qed.

Lemma broadcast_add_values cur values meta_scale :
  length values = length cur ∨ length values = 1 →
  broadcast_add cur ((λ v, Num (v * meta_scale)) <$> values) =
  mret (zip_with fadd cur
          ((λ v, Num (v * meta_scale)) <$>
             broadcast_values (length cur) values)).
Proof.
  intros Hl. unfold broadcast_add, broadcast_values. rewrite length_fmap.
  case_decide; [done|]. destruct Hl as [?|Hl]; [done|].
  destruct values as [|v [|??]]; try done. csimpl.
  by rewrite fmap_fadd_replicate, fmap_replicate.
Qed.

Lemma add_meta_score_key sources query meta_scale res m src positions values :
  sources !! m = Some src →
  ms_positions src !! query = Some positions →
  ms_values src !! query = Some values →
  length values = length positions ∨ length values = 1 →
  Forall (λ d, d < row_ncols res) positions →
  add_meta_score sources query meta_scale res m =
  mret (row_set_many res positions
          (boosted_values res positions
             (broadcast_values (length positions) values) meta_scale)).
Proof.
  intros E1 E2 E3 Hlen Hr. unfold add_meta_score, dict_get.
  rewrite E1, ret_bind, E2, row_get_many_eq, ret_bind, E3, ret_bind by done.
  rewrite broadcast_add_values by (by rewrite length_fmap).
  by rewrite ret_bind, length_fmap.
Qed.

(** ** One round of the meta loop *)

Lemma boosted_values_length res positions values meta_scale :
  length values = length positions →
  length (boosted_values res positions values meta_scale) = length positions.
Proof.
  intros Hlen. unfold boosted_values.
  rewrite length_zip_with, !length_fmap. lia.
Qed.

Lemma row_set_many_notin res idxs xs d :
  d ∉ idxs → length idxs ≤ length xs →
  row_entries (row_set_many res idxs xs) !! d = row_entries res !! d.
Proof.
  intros Hd Hlen. unfold row_set_many. simpl.
  apply foldl_insert_notin. by rewrite fst_zip.
Qed.

Lemma row_set_many_dom res idxs xs d :
  length idxs ≤ length xs →
  is_Some (row_entries (row_set_many res idxs xs) !! d) ↔
  d ∈ idxs ∨ is_Some (row_entries res !! d).
Proof.
  intros Hlen. unfold row_set_many. simpl.
  by rewrite foldl_insert_dom, fst_zip.
Qed.

Lemma foldl_insert_last (m : gmap nat fval) ps (xs : list fval) d :
  foldl (λ m ix, <[ix.1 := ix.2]> m) m (zip ps xs) !! d =
  match last_value d ps xs with
  | Some x => Some x
  | None => m !! d
  end.
Proof.
  revert xs m. induction ps as [|p ps IH]; intros [|x xs] m; try done.
  cbn [zip zip_with foldl last_value]. rewrite IH. simpl.
  destruct (last_value d ps xs); [done|].
  case_decide as Hp; [subst; by rewrite lookup_insert_eq|].
  by rewrite lookup_insert_ne.
Qed.

Lemma last_value_boosted res ps (vs : list R) (g : R → fval) d :
  last_value d ps (zip_with fadd (cell res <$> ps) (g <$> vs)) =
  (λ v, fadd (cell res d) (g v)) <$> last_value d ps vs.
Proof.
  revert vs. induction ps as [|p ps IH]; intros [|v vs]; try done.
  csimpl. rewrite IH. destruct (last_value d ps vs); [done|].
  by case_decide; subst.
Qed.

Lemma last_value_None {A} d ps (xs : list A) :
  d ∉ ps → last_value d ps xs = None.
Proof.
  revert xs. induction ps as [|p ps IH]; intros [|x xs] Hd; try done.
  apply not_elem_of_cons in Hd as [Hp Hd]. simpl. rewrite IH by done.
  by rewrite decide_False.
Qed.

Lemma boost_round res positions values meta_scale d :
  row_entries (row_set_many res positions
                 (boosted_values res positions values meta_scale)) !! d =
  match last_value d positions values with
  | Some v => Some (fadd (cell res d) (Num (v * meta_scale)))
  | None => row_entries res !! d
  end.
Proof.
  unfold row_set_many, boosted_values. simpl.
  rewrite foldl_insert_last, last_value_boosted.
  by destruct (last_value d positions values).
Qed.

Lemma boost_of_unlisted src query positions d :
  ms_positions src !! query = Some positions → d ∉ positions →
  boost_of src query d = 0%R.
Proof.
  intros E1 Hd. unfold boost_of. rewrite E1.
  destruct (ms_values src !! query) as [values|]; [|done].
  by rewrite last_value_None.
Qed.

Lemma boost_of_no_key src query d :
  ms_positions src !! query = None → boost_of src query d = 0%R.
Proof. intros E. unfold boost_of. by rewrite E. Qed.

(** One round on an acceptable entry: the listed cells grow by their boost
    value times the scale, the other cells are not touched. *)
Lemma add_meta_score_ok sources query meta_scale res m src :
  sources !! m = Some src → source_ok (row_ncols res) src query →
  ∃ res', add_meta_score sources query meta_scale res m = mret res' ∧
    row_ncols res' = row_ncols res ∧
    (∀ d, cell res' d = fadd (cell res d) (Num (boost_of src query d * meta_scale))) ∧
    (∀ d, is_Some (row_entries res' !! d) ↔
          (∃ positions, ms_positions src !! query = Some positions ∧
                        d ∈ positions) ∨
          is_Some (row_entries res !! d)) ∧
    (∀ d, (∀ positions, ms_positions src !! query = Some positions →
                        d ∉ positions) →
          row_entries res' !! d = row_entries res !! d).
Proof.
  intros E Hok. unfold source_ok in Hok.
  destruct (ms_positions src !! query) as [positions|] eqn:Ep.
  - destruct Hok as (Hr & values & Ev & Hlen).
    set (bv := broadcast_values (length positions) values).
    exists (row_set_many res positions
              (boosted_values res positions bv meta_scale)).
    split; [by eapply add_meta_score_key|]. split; [done|].
    assert (length bv = length positions) as Hbv
      by (by apply broadcast_values_length).
    pose proof (boosted_values_length res positions bv meta_scale Hbv) as Hbl.
    split; [|split].
    + intros d. unfold cell at 1. rewrite boost_round.
      unfold boost_of. rewrite Ep, Ev. fold bv.
      destruct (last_value d positions bv); simpl; [done|].
      by rewrite Rmult_0_l, fadd_zero_r.
    + intros d. rewrite row_set_many_dom by lia. split.
      * intros [?|?]; [left; by exists positions|by right].
      * intros [(p & [= <-] & ?)|?]; [by left|by right].
    + intros d Hd. apply row_set_many_notin; [by apply Hd|lia].
  - exists res. split; [by eapply add_meta_score_no_key|]. split; [done|].
    split; [|split].
    + intros d. by rewrite boost_of_no_key, Rmult_0_l, fadd_zero_r.
    + intros d. split; [by right|]. by intros [(p & ? & _)|?].
    + done.
Qed.

(** ** The whole meta loop *)

Lemma total_boost_cons sources query m meta d src :
  sources !! m = Some src →
  total_boost sources query (m :: meta) d =
  (boost_of src query d + total_boost sources query meta d)%R.
Proof. intros E. unfold total_boost. simpl. by rewrite E. Qed.

Lemma listed_nil sources query d : ¬ listed sources query [] d.
Proof. intros (m & ? & ? & Hin & _). by apply elem_of_nil in Hin. Qed.

Lemma listed_cons sources query m meta d src :
  sources !! m = Some src →
  listed sources query (m :: meta) d ↔
  (∃ positions, ms_positions src !! query = Some positions ∧ d ∈ positions) ∨
  listed sources query meta d.
Proof.
  intros E. unfold listed. split.
  - intros (m' & src' & p & Hin & E' & Ep & Hd).
    apply elem_of_cons in Hin as [->|Hin].
    + left. exists p. split; [congruence|done].
    + right. by exists m', src', p.
  - intros [(p & Ep & Hd)|(m' & src' & p & Hin & E' & Ep & Hd)].
    + exists m, src, p. split; [by left|done].
    + exists m', src', p. split; [by right|done].
Qed.

Lemma add_meta_loop_ok sources query meta_scale meta res :
  meta_ok (row_ncols res) sources query meta →
  ∃ res', foldlM (add_meta_score sources query meta_scale) res meta = mret res' ∧
    row_ncols res' = row_ncols res ∧
    (∀ d, cell res' d =
          fadd (cell res d) (Num (total_boost sources query meta d * meta_scale))) ∧
    (∀ d, is_Some (row_entries res' !! d) ↔
          listed sources query meta d ∨ is_Some (row_entries res !! d)) ∧
    (∀ d, ¬ listed sources query meta d →
          row_entries res' !! d = row_entries res !! d).
Proof.
  unfold meta_ok. revert res.
  induction meta as [|m meta IH]; intros res Hok.
  - exists res. split; [done|]. split; [done|]. split; [|split].
    + intros d. unfold total_boost. simpl. by rewrite Rmult_0_l, fadd_zero_r.
    + intros d. split; [by right|]. intros [?%listed_nil|?]; done.
    + done.
  - apply Forall_cons in Hok as [(src & E & Hsrc) Hok].
    destruct (add_meta_score_ok sources query meta_scale res m src E Hsrc)
      as (res1 & E1 & Hn1 & Hc1 & Hd1 & Hu1).
    destruct (IH res1) as (res' & E' & Hn' & Hc' & Hd' & Hu').
    { by rewrite Hn1. }
    exists res'. split; [|split; [congruence|split; [|split]]].
    + cbn [foldlM]. by rewrite E1, ret_bind.
    + intros d. rewrite Hc', Hc1, fadd_Num_Num.
      rewrite (total_boost_cons _ _ _ _ _ src) by done.
      do 2 f_equal. ring.
    + intros d. rewrite Hd', Hd1, (listed_cons _ _ _ _ _ src) by done. tauto.
    + intros d Hnl. rewrite (listed_cons _ _ _ _ _ src) in Hnl by done.
      rewrite Hu' by tauto. apply Hu1. intros p Ep Hd. apply Hnl. left. eauto.
Qed.

(** A requested name that is not in the table stops the loop with a
    [KeyError], whatever comes after it. *)
Lemma add_meta_loop_missing sources query meta_scale pre m post res :
  meta_ok (row_ncols res) sources query pre → sources !! m = None →
  foldlM (add_meta_score sources query meta_scale) res (pre ++ m :: post) =
  raise KeyError.
Proof.
  unfold meta_ok. revert res.
  induction pre as [|m' pre IH]; intros res Hok Em.
  - cbn [app foldlM]. by rewrite add_meta_score_missing.
  - apply Forall_cons in Hok as [(src & E & Hsrc) Hok].
    destruct (add_meta_score_ok sources query meta_scale res m' src E Hsrc)
      as (res1 & E1 & Hn1 & _).
    cbn [app foldlM]. rewrite E1, ret_bind. apply IH; [by rewrite Hn1|done].
Qed.

Section MetaBoost.
Context {tools : TextTools} {np : NumpySort}.

Lemma add_meta_scores_off self query meta meta_scale res :
  dd_len (doc_dict self) ≠ 4 →
  add_meta_scores self query meta meta_scale res = mret res.
Proof. intros Hn. unfold add_meta_scores. by rewrite decide_False. Qed.

Lemma add_meta_scores_on self query meta meta_scale res sources :
  dd_len (doc_dict self) = 4 → dd_sources (doc_dict self) = Some sources →
  add_meta_scores self query meta meta_scale res =
  foldlM (add_meta_score sources query meta_scale) res meta.
Proof.
  intros Hn Hs. unfold add_meta_scores. by rewrite decide_True, Hs.
Qed.

Lemma returns_scored_row self query meta meta_scale res :
  returns (scored_row self query meta meta_scale) res ↔
  ∃ spvec raw, returns (text2spvec self query) spvec ∧
    returns (csr_mul spvec (doc_mat self)) raw ∧
    returns (add_meta_scores self query meta meta_scale raw) res.
Proof.
  unfold scored_row. rewrite returns_bind. split.
  - intros (spvec & Hs & Hr). apply returns_bind in Hr as (raw & Hraw & Hr).
    by exists spvec, raw.
  - intros (spvec & raw & Hs & Hraw & Hr). exists spvec. split; [done|].
    apply returns_bind. by exists raw.
Qed.

(** C4, as amended.  On a four-component [doc_dict], with the query
    vector and the raw product computed.  When the table holds every
    requested source name (each entry under the raw query string listing
    in-range documents, with as many boost values as documents or a
    single value that is broadcast), the score row used by [closest_docs]
    and [doc_scores] has, at every document, the raw dot product plus
    [meta_scale] times the boost values that the requested sources apply
    to that document under the raw query string (for a document that a
    source lists more than once, the value of its last listing); a
    document that no requested source lists under that key keeps its raw
    entry untouched.  When a requested name is not in the table (the
    names before it being fine), the score row is not computed and both
    [closest_docs] and [doc_scores] stop with a [KeyError]. *)
Theorem scored_row_boosts self query meta meta_scale spvec raw sources :
  returns (text2spvec self query) spvec →
  returns (csr_mul spvec (doc_mat self)) raw →
  dd_len (doc_dict self) = 4 →
  dd_sources (doc_dict self) = Some sources →
  (meta_ok (mat_ncols (doc_mat self)) sources query meta →
   ∃ res, returns (scored_row self query meta meta_scale) res ∧
     (∀ d, cell res d =
           fadd (dot (sv_entries spvec) (mat_rows (doc_mat self)) d)
                (Num (total_boost sources query meta d * meta_scale))) ∧
     (∀ d, ¬ listed sources query meta d →
           row_entries res !! d = row_entries raw !! d)) ∧
  (∀ pre m post, meta = pre ++ m :: post →
     meta_ok (mat_ncols (doc_mat self)) sources query pre →
     sources !! m = None →
     raises (scored_row self query meta meta_scale) KeyError ∧
     (∀ k, raises (closest_docs self query meta meta_scale k) KeyError) ∧
     (∀ idxs, raises (doc_scores self (query, idxs) meta meta_scale)
                     KeyError)).
Proof.
  intros Hs Hraw Hlen Hsrc. split.
  - intros Hok. rewrite <-(csr_mul_ncols _ _ _ Hraw) in Hok.
    destruct (add_meta_loop_ok sources query meta_scale meta raw Hok)
      as (res & E & _ & Hc & _ & Hu).
    exists res. split; [|split].
    + apply returns_scored_row. exists spvec, raw. split; [done|]. split; [done|].
      rewrite (add_meta_scores_on _ _ _ _ _ sources) by done.
      rewrite E. by apply returns_ret.
    + intros d. by rewrite Hc, (csr_mul_cell _ _ _ _ Hraw).
    + done.
  - intros pre m post -> Hok Hm.
    rewrite <-(csr_mul_ncols _ _ _ Hraw) in Hok.
    assert (raises (scored_row self query (pre ++ m :: post) meta_scale)
              KeyError) as Hrow.
    { unfold scored_row. apply raises_bind. right. exists spvec.
      split; [done|]. apply raises_bind. right. exists raw. split; [done|].
      rewrite (add_meta_scores_on _ _ _ _ _ sources) by done.
      by rewrite add_meta_loop_missing. }
    split; [done|]. split.
    + intros k. unfold closest_docs. apply raises_bind. by left.
    + intros idxs. unfold doc_scores. apply raises_bind. by left.
Qed.

End MetaBoost.

(** ** Indexing by a list of positions *)

Lemma index_many_lookup_total `{Inhabited A} (a : list A) (o : list nat) :
  Forall (λ i, i < length a) o →
  index_many a o = mret ((λ i, a !!! i) <$> o).
Proof.
  intros Ho. apply index_many_eq.
  induction Ho as [|i o Hi _ IH]; csimpl; constructor; [|done].
  by apply list_lookup_lookup_total_lt.
Qed.

Lemma perm_seq_in_range (o : list nat) n :
  o ≡ₚ seq 0 n → Forall (λ i, i < n) o.
Proof.
  intros Hp. apply Forall_forall. intros i Hi. rewrite Hp in Hi.
  apply elem_of_seq in Hi. lia.
Qed.

Lemma fmap_lookup_total_seq `{Inhabited A} (l : list A) :
  (λ i, l !!! i) <$> seq 0 (length l) = l.
Proof.
  apply list_eq. intros i. rewrite list_lookup_fmap.
  destruct (decide (i < length l)) as [Hi|Hi].
  - rewrite lookup_seq_lt by done. simpl.
    by rewrite list_lookup_lookup_total_lt.
  - rewrite lookup_seq_ge, lookup_ge_None_2 by lia. done.
Qed.

Lemma fmap_lookup_total_perm `{Inhabited A} (l : list A) (o : list nat) :
  o ≡ₚ seq 0 (length l) → (λ i, l !!! i) <$> o ≡ₚ l.
Proof. intros ->. by rewrite fmap_lookup_total_seq. Qed.

Lemma gather_length a o : length (gather a o) = length o.
Proof. unfold gather. by rewrite length_fmap. Qed.

Lemma gather_fneg a o :
  Forall (λ i, i < length a) o →
  gather (fneg <$> a) o = fneg <$> gather a o.
Proof.
  intros Ho. unfold gather. rewrite <-list_fmap_compose.
  apply Forall_fmap_ext. eapply Forall_impl; [exact Ho|].
  intros i Hi. simpl. by apply list_lookup_total_fmap.
Qed.

Lemma gather_app a o1 o2 : gather a (o1 ++ o2) = gather a o1 ++ gather a o2.
Proof. unfold gather. apply fmap_app. Qed.

Section Subsort.
Context {np : NumpySort}.

Lemma subsort_perm a o : subsort a o ≡ₚ o.
Proof.
  unfold subsort. apply fmap_lookup_total_perm.
  by rewrite argsort_perm, gather_length.
Qed.

Lemma subsort_gather a o :
  gather a (subsort a o) = gather (gather a o) (argsort (gather a o)).
Proof.
  unfold subsort, gather at 1 3. rewrite <-list_fmap_compose.
  apply Forall_fmap_ext.
  pose proof (perm_seq_in_range _ _ (argsort_perm (gather a o))) as Hr.
  eapply Forall_impl; [exact Hr|]. intros j Hj. simpl.
  rewrite gather_length in Hj. unfold gather. symmetry.
  by apply (list_lookup_total_fmap (λ i, a !!! i)).
Qed.

Lemma subsort_sorted a o : StronglySorted np_le (gather a (subsort a o)).
Proof. rewrite subsort_gather. apply argsort_sorted. Qed.

End Subsort.

(** ** Top-k selection *)

Lemma slice_to_nonneg {A} (l : list A) (k : Z) :
  (0 ≤ k)%Z → slice_to l k = take (Z.to_nat k) l.
Proof. intros Hk. unfold slice_to. by rewrite decide_False by lia. Qed.

Section TopK.
Context {np : NumpySort}.

Lemma np_argpartition_in_bounds a (k : Z) :
  (0 ≤ k < Z.of_nat (length a))%Z →
  np_argpartition a k = mret (argpartition a (Z.to_nat k)).
Proof.
  intros Hk. unfold np_argpartition.
  rewrite (decide_False (P := (k < 0)%Z)) by lia. by rewrite decide_True.
Qed.

Lemma top_positions_all data (k : Z) :
  (Z.of_nat (length data) ≤ k)%Z →
  top_positions data k = mret (argsort (fneg <$> data)).
Proof. intros Hk. unfold top_positions. by rewrite decide_True. Qed.

Lemma top_positions_partition data (k : Z) :
  (0 ≤ k < Z.of_nat (length data))%Z →
  top_positions data k =
  mret (subsort (fneg <$> data)
          (take (Z.to_nat k) (argpartition (fneg <$> data) (Z.to_nat k)))).
Proof.
  intros Hk. unfold top_positions. rewrite decide_False by lia.
  rewrite np_argpartition_in_bounds by (by rewrite length_fmap).
  rewrite ret_bind, slice_to_nonneg by lia.
  set (part := argpartition (fneg <$> data) (Z.to_nat k)).
  assert (Forall (λ i, i < length data) (take (Z.to_nat k) part)) as Ho.
  { apply Forall_take, perm_seq_in_range.
    rewrite <-(length_fmap fneg data).
    apply argpartition_perm. rewrite length_fmap. lia. }
  rewrite (index_many_lookup_total data) by done. rewrite ret_bind.
  change ((λ i, data !!! i) <$> take (Z.to_nat k) part)
    with (gather data (take (Z.to_nat k) part)).
  rewrite <-gather_fneg by done.
  rewrite index_many_lookup_total; [done|].
  eapply Forall_impl; [apply perm_seq_in_range, argsort_perm|].
  intros j Hj. simpl in Hj. by rewrite gather_length in Hj.
Qed.

(** What [top_positions] returns for [k >= 0]: the front of an
    arrangement of all positions in descending order of value. *)
Lemma top_positions_spec data (k : Z) :
  (0 ≤ k)%Z →
  ∃ o_sort rest,
    top_positions data k = mret o_sort ∧
    o_sort ++ rest ≡ₚ seq 0 (length data) ∧
    StronglySorted np_le (gather (fneg <$> data) (o_sort ++ rest)) ∧
    length o_sort = Z.to_nat k `min` length data.
Proof.
  intros Hk. destruct (decide (Z.of_nat (length data) ≤ k)%Z) as [Hall|Hpart].
  - exists (argsort (fneg <$> data)), [].
    split; [by apply top_positions_all|]. rewrite app_nil_r.
    pose proof (argsort_perm (fneg <$> data)) as Hp.
    rewrite length_fmap in Hp.
    split; [done|]. split; [apply argsort_sorted|].
    rewrite Hp, length_seq. lia.
  - set (a := fneg <$> data). set (kth := Z.to_nat k).
    assert (kth < length a) as Hkth by (unfold a, kth; rewrite length_fmap; lia).
    pose proof (argpartition_perm a kth Hkth) as Hp.
    pose proof (argpartition_pivot a kth Hkth) as Hpiv.
    set (part := argpartition a kth) in *.
    exists (subsort a (take kth part)), (subsort a (drop kth part)).
    split; [apply top_positions_partition; lia|]. split; [|split].
    + rewrite !subsort_perm, take_drop, Hp. unfold a. by rewrite length_fmap.
    + rewrite gather_app. apply StronglySorted_app.
      split; [|split; apply subsort_sorted].
      intros x y Hx Hy. apply Hpiv.
      * unfold gather in *. rewrite <-fmap_take.
        by rewrite subsort_perm in Hx.
      * unfold gather in *. rewrite <-fmap_drop.
        by rewrite subsort_perm in Hy.
    + rewrite subsort_perm, length_take, Hp, length_seq.
      unfold a. rewrite length_fmap. done.
Qed.

End TopK.

Lemma StronglySorted_fmap_inv {A B} (f : A → B) (R : relation B) (l : list A) :
  StronglySorted R (f <$> l) → StronglySorted (λ x y, R (f x) (f y)) l.
Proof.
  induction l as [|x l IH]; csimpl; [constructor|].
  intros [Hx Hl]%StronglySorted_cons. constructor; [by apply IH|].
  by rewrite Forall_fmap in Hx.
Qed.

Lemma take_app_min {A} (l1 l2 : list A) k :
  length l1 = k `min` length (l1 ++ l2) → take k (l1 ++ l2) = l1.
Proof.
  rewrite length_app. intros Hlen.
  destruct (decide (k ≤ length l1)) as [Hk|Hk].
  - apply take_app_length'. lia.
  - assert (l2 = []) as -> by (apply nil_length_inv; lia).
    rewrite app_nil_r. apply take_ge. lia.
Qed.

Lemma zip_lookup_total_pairs (entries : list (nat * fval)) (o : list nat) :
  Forall (λ i, i < length entries) o →
  zip ((λ i, entries.*1 !!! i) <$> o) ((λ i, entries.*2 !!! i) <$> o) =
  (λ i, entries !!! i) <$> o.
Proof.
  intros Ho. rewrite zip_with_fmap_l, zip_with_fmap_r, zip_with_diag.
  apply Forall_fmap_ext. eapply Forall_impl; [exact Ho|]. intros i Hi. simpl.
  rewrite (list_lookup_total_fmap fst), (list_lookup_total_fmap snd) by done.
  by destruct (entries !!! i).
Qed.

Section ClosestDocs.
Context {tools : TextTools} {np : NumpySort}.

(** What [closest_docs] returns for [k >= 0] once the score row is there:
    the first [k] pairs of an arrangement of all stored entries of the row
    in descending order of score. *)
Lemma closest_docs_top self query meta meta_scale (k : Z) res :
  returns (scored_row self query meta meta_scale) res → (0 ≤ k)%Z →
  ∃ ids scores full,
    returns (closest_docs self query meta meta_scale k) (ids, scores) ∧
    full ≡ₚ map_to_list (row_entries res) ∧
    StronglySorted by_score_desc full ∧
    zip ids scores = take (Z.to_nat k) full ∧
    length ids = length scores.
Proof.
  intros Hres Hk.
  set (entries := map_to_list (row_entries res)).
  destruct (top_positions_spec (res_data res) k Hk)
    as (o_sort & rest & Etop & Hperm & Hsorted & Hlen).
  assert (length (res_data res) = length entries) as Hn
    by (unfold res_data; by rewrite length_fmap).
  assert (length (res_indices res) = length entries) as Hn'
    by (unfold res_indices; by rewrite length_fmap).
  rewrite Hn in Hperm, Hlen.
  pose proof (perm_seq_in_range _ _ Hperm) as Hrange.
  apply Forall_app in Hrange as Hr2. destruct Hr2 as [Hro _].
  exists ((λ i, res_indices res !!! i) <$> o_sort),
         ((λ i, res_data res !!! i) <$> o_sort),
         ((λ i, entries !!! i) <$> (o_sort ++ rest)).
  split; [|split; [|split; [|split]]].
  - unfold closest_docs. apply returns_bind. exists res. split; [done|].
    rewrite Etop, ret_bind.
    rewrite (index_many_lookup_total (res_data res)) by (by rewrite Hn).
    rewrite ret_bind.
    rewrite (index_many_lookup_total (res_indices res)) by (by rewrite Hn').
    rewrite ret_bind. by apply returns_ret.
  - by apply fmap_lookup_total_perm.
  - unfold by_score_desc.
    apply (StronglySorted_fmap_inv (λ p : nat * fval, fneg p.2) np_le).
    rewrite <-list_fmap_compose.
    replace ((λ p : nat * fval, fneg p.2) ∘ (λ i, entries !!! i) <$> o_sort ++ rest)
      with (gather (fneg <$> res_data res) (o_sort ++ rest)); [done|].
    unfold gather. apply Forall_fmap_ext.
    eapply Forall_impl; [exact Hrange|]. intros i Hi. simpl.
    unfold res_data. rewrite <-list_fmap_compose.
    by apply (list_lookup_total_fmap (fneg ∘ snd)).
  - unfold res_indices, res_data. fold entries.
    rewrite zip_lookup_total_pairs by done.
    rewrite fmap_app, take_app_min; [done|].
    rewrite <-fmap_app, !length_fmap, Hlen.
    apply Permutation_length in Hperm. rewrite length_seq in Hperm. lia.
  - by rewrite !length_fmap.
Qed.

End ClosestDocs.

(** ** Which documents can be stored in the boosted row *)

Lemma returns_add_meta_score_dom sources query meta_scale res m res' d :
  returns (add_meta_score sources query meta_scale res m) res' →
  is_Some (row_entries res' !! d) →
  (∃ src positions, sources !! m = Some src ∧
     ms_positions src !! query = Some positions ∧ d ∈ positions) ∨
  is_Some (row_entries res !! d).
Proof.
  unfold add_meta_score. intros (src & Hsrc & Hr)%returns_bind Hd.
  apply returns_dict_get in Hsrc.
  destruct (ms_positions src !! query) as [positions|] eqn:Ep.
  - apply returns_bind in Hr as (cur & _ & Hr).
    apply returns_bind in Hr as (values & _ & Hr).
    apply returns_bind in Hr as (new & _ & Hr).
    apply returns_ret in Hr as <-. unfold row_set_many in Hd. simpl in Hd.
    apply foldl_insert_dom in Hd as [Hd|Hd]; [|by right].
    left. exists src, positions. split; [done|]. split; [done|].
    apply list_elem_of_fmap in Hd as ([d' x] & -> & Hin).
    by apply elem_of_zip_l in Hin.
  - apply returns_ret in Hr as <-. by right.
Qed.

Lemma returns_add_meta_loop_dom sources query meta_scale meta res res' d :
  returns (foldlM (add_meta_score sources query meta_scale) res meta) res' →
  is_Some (row_entries res' !! d) →
  listed sources query meta d ∨ is_Some (row_entries res !! d).
Proof.
  revert res. induction meta as [|m meta IH]; intros res Hr Hd.
  - apply returns_ret in Hr as <-. by right.
  - cbn [foldlM] in Hr. apply returns_bind in Hr as (res1 & H1 & Hr).
    destruct (IH _ Hr Hd) as [(m' & src & p & Hin & ?)|Hd1].
    { left. exists m', src, p. split; [by right|done]. }
    destruct (returns_add_meta_score_dom _ _ _ _ _ _ _ H1 Hd1)
      as [(src & p & ? & ? & ?)|?]; [|by right].
    left. exists m, src, p. split; [by left|done].
Qed.

Section Candidates.
Context {tools : TextTools}.

(** A stored entry of the boosted row belongs to a document with a
    nonzero dot product or to one that a requested source lists under the
    raw query string. *)
Lemma scored_row_stored self query meta meta_scale res spvec d :
  returns (scored_row self query meta meta_scale) res →
  returns (text2spvec self query) spvec →
  is_Some (row_entries res !! d) →
  fnonzero (dot (sv_entries spvec) (mat_rows (doc_mat self)) d) ∨
  (dd_len (doc_dict self) = 4 ∧
   ∃ sources, dd_sources (doc_dict self) = Some sources ∧
              listed sources query meta d).
Proof.
  intros (spvec' & raw & Hs & Hraw & Hr)%returns_scored_row Hs' Hd.
  assert (spvec' = spvec) as -> by (by eapply returns_inj).
  assert (is_Some (row_entries raw !! d) →
          fnonzero (dot (sv_entries spvec) (mat_rows (doc_mat self)) d))
    as Hrawd.
  { intros [s E]. by apply (csr_mul_entries _ _ _ _ _ Hraw) in E as [<- ?]. }
  unfold add_meta_scores in Hr. case_decide as Hlen.
  - destruct (dd_sources (doc_dict self)) as [sources|] eqn:Esrc.
    + destruct (returns_add_meta_loop_dom _ _ _ _ _ _ _ Hr Hd) as [?|?].
      * right. split; [done|]. by exists sources.
      * left. by apply Hrawd.
    + apply returns_ret in Hr as <-. left. by apply Hrawd.
  - apply returns_ret in Hr as <-. left. by apply Hrawd.
Qed.

End Candidates.

Lemma score_desc_fge (l : list fval) :
  Forall is_finite l → StronglySorted score_desc l → StronglySorted fge l.
Proof.
  induction 1 as [|a l Ha Hl IH]; [constructor|].
  intros [Hx Hs]%StronglySorted_cons. constructor; [by apply IH|].
  rewrite Forall_forall in Hx, Hl. apply Forall_forall. intros b Hb.
  apply np_le_fneg_fge; [done|by apply Hl|by apply Hx].
Qed.

Lemma StronglySorted_take {A} (R : relation A) (l : list A) n :
  StronglySorted R l → StronglySorted R (take n l).
Proof.
  intros Hl. rewrite <-(take_drop n l) in Hl.
  by apply StronglySorted_app_1_l in Hl.
Qed.

Section ClosestDocsClaims.
Context {tools : TextTools} {np : NumpySort}.

(** C6, as amended.  Top-k selection in [closest_docs], for [k >= 0], the
    candidates being the stored entries of the score row (a stored score
    may be 0, when a meta boost wrote it).  With at most [k]
    candidates the positions are one [argsort] of all negated scores; with
    more, [argpartition] picks [k] positions and only those are sorted.
    Either way the returned (doc_index, score) pairs are the first [k]
    pairs of some arrangement of all candidates in descending order of
    score (the arrangement fixes the order among equal scores), so all
    candidates come back when there are at most [k]. *)
Theorem closest_docs_selection self query meta meta_scale (k : Z) res :
  returns (scored_row self query meta meta_scale) res → (0 ≤ k)%Z →
  ((Z.of_nat (length (res_data res)) ≤ k)%Z →
     top_positions (res_data res) k =
     mret (argsort (fneg <$> res_data res))) ∧
  ((k < Z.of_nat (length (res_data res)))%Z →
     top_positions (res_data res) k =
     mret (subsort (fneg <$> res_data res)
             (take (Z.to_nat k)
                (argpartition (fneg <$> res_data res) (Z.to_nat k))))) ∧
  ∃ ids scores full,
    returns (closest_docs self query meta meta_scale k) (ids, scores) ∧
    full ≡ₚ map_to_list (row_entries res) ∧
    StronglySorted by_score_desc full ∧
    zip ids scores = take (Z.to_nat k) full ∧
    length ids = length scores ∧
    ((Z.of_nat (length (res_data res)) ≤ k)%Z → zip ids scores = full).
Proof.
  intros Hres Hk. split; [apply top_positions_all|].
  split; [intros Hlt; apply top_positions_partition; lia|].
  destruct (closest_docs_top self query meta meta_scale k res Hres Hk)
    as (ids & scores & full & Hret & Hperm & Hsorted & Hzip & Hlen).
  exists ids, scores, full. repeat (split; [done|]).
  intros Hall. rewrite Hzip. apply take_ge.
  apply Permutation_length in Hperm. unfold res_data in Hall.
  rewrite length_fmap in Hall. lia.
Qed.

(** C2, as amended.  For [k >= 0], once the score row is computed,
    [closest_docs] returns at most [k] results, in descending order of
    score (numpy's order, a NaN last; plainly descending when all scores
    are numbers), and every returned document either has a nonzero dot
    product with the query vector or is listed under the raw query string
    by a requested meta source of a four-component [doc_dict]. *)
Theorem closest_docs_results self query meta meta_scale (k : Z) res :
  returns (scored_row self query meta meta_scale) res → (0 ≤ k)%Z →
  ∃ ids scores spvec,
    returns (closest_docs self query meta meta_scale k) (ids, scores) ∧
    returns (text2spvec self query) spvec ∧
    length ids ≤ Z.to_nat k ∧
    length scores = length ids ∧
    StronglySorted score_desc scores ∧
    (Forall is_finite scores → StronglySorted fge scores) ∧
    ∀ d, d ∈ ids →
      fnonzero (dot (sv_entries spvec) (mat_rows (doc_mat self)) d) ∨
      (dd_len (doc_dict self) = 4 ∧
       ∃ sources, dd_sources (doc_dict self) = Some sources ∧
                  listed sources query meta d).
Proof.
  intros Hres Hk.
  destruct (closest_docs_top self query meta meta_scale k res Hres Hk)
    as (ids & scores & full & Hret & Hperm & Hsorted & Hzip & Hlen).
  pose proof Hres as (spvec & raw & Hs & _)%returns_scored_row.
  exists ids, scores, spvec. split; [done|]. split; [done|].
  assert (ids = (take (Z.to_nat k) full).*1) as Hids
    by (rewrite <-Hzip, fst_zip; [done|lia]).
  assert (scores = (take (Z.to_nat k) full).*2) as Hscores
    by (rewrite <-Hzip, snd_zip; [done|lia]).
  assert (StronglySorted score_desc scores) as Hdesc.
  { rewrite Hscores.
    apply (StronglySorted_fmap snd by_score_desc score_desc); [done|].
    by apply StronglySorted_take. }
  split; [|split; [done|split; [done|split]]].
  - rewrite Hids, length_fmap, length_take. lia.
  - intros Hfin. by apply score_desc_fge.
  - intros d Hd. rewrite Hids in Hd.
    apply list_elem_of_fmap in Hd as ([d' s] & -> & Hin). simpl.
    apply elem_of_take in Hin as (i & Hi & _).
    apply list_elem_of_lookup_2 in Hi. rewrite Hperm in Hi.
    apply elem_of_map_to_list in Hi.
    eapply scored_row_stored; [done|done|by eexists].
Qed.

End ClosestDocsClaims.

(** ** Running the ranker on the concrete indexes *)

Lemma dot_step_zero d (l : list (nat * R)) :
  foldl (dot_step d fzero) fzero l = fzero.
Proof.
  induction l as [|[k b] l IH]; cbn [foldl]; [done|].
  unfold dot_step at 2. simpl. case_decide; [|done].
  replace (0 + 0 * b)%R with 0%R by lra. done.
Qed.

Lemma dot_zero_vec (sp : list (nat * fval)) (rows : list (list (nat * R))) d :
  Forall (λ jv, jv.2 = fzero) sp → dot sp rows d = fzero.
Proof.
  unfold dot. induction 1 as [|[j v] sp Hv _ IH]; cbn [foldl]; [done|].
  simpl in Hv. subst v. simpl. by rewrite dot_step_zero.
Qed.

Lemma csr_mul_zero_vec spvec B :
  Forall (λ jv, jv.2 = fzero) (sv_entries spvec) →
  sv_ncols spvec = length (mat_rows B) →
  csr_mul spvec B = mret {| row_ncols := mat_ncols B; row_entries := ∅ |}.
Proof.
  intros Hz Hn. unfold csr_mul. rewrite decide_True by done.
  do 2 f_equal. apply map_eq. intros d. rewrite lookup_empty.
  apply map_lookup_filter_None. right. intros x Hx Hnz. simpl in Hnz.
  pose proof (accumulate_lookup (sv_entries spvec) (mat_rows B) d) as Hd.
  rewrite Hx, dot_zero_vec in Hd by done. simpl in Hd. subst x.
  by destruct Hnz.
Qed.

(** On the common-term indexes the query "covid" gets the weight 0, so no
    document has a stored raw score. *)
Lemma common_term_raw_row dd strict' :
  let self := make_ranker [[]; [(0, 1%R); (1, 1%R)]] 3 [0; 2] dd strict' in
  num_docs self = 3 →
  text2spvec (tools := example_tools) self "covid" =
    mret {| sv_ncols := 2; sv_entries := [(1, Num 0)] |} ∧
  csr_mul {| sv_ncols := 2; sv_entries := [(1, Num 0)] |} (doc_mat self) =
    mret {| row_ncols := 3; row_entries := ∅ |}.
Proof.
  intros self HN. split.
  - rewrite (text2spvec_one_bucket _ _ 0 2) by done.
    rewrite HN, idf_zero by lia. simpl. by rewrite Rmult_0_r.
  - by rewrite csr_mul_zero_vec by (by repeat constructor).
Qed.

Lemma boost_doc2_round v meta_scale name :
  add_meta_score {[ name := source_for_doc2 v ]} "covid" meta_scale
    {| row_ncols := 3; row_entries := ∅ |} name =
  mret {| row_ncols := 3;
          row_entries := {[ 2 := Num (v * meta_scale) ]} |}.
Proof.
  rewrite (add_meta_score_key _ _ _ _ _ (source_for_doc2 v) [2] [v]);
    [|by rewrite lookup_singleton_eq|done|done|by left
     |repeat constructor; simpl; lia].
  unfold row_set_many, boosted_values, broadcast_values, cell. simpl.
  rewrite lookup_empty. simpl. by rewrite Rplus_0_l, insert_empty.
Qed.

Lemma doc2_boosted_row v meta_scale :
  scored_row (tools := example_tools)
    (make_ranker [[]; [(0, 1%R); (1, 1%R)]] 3 [0; 2]
       (with_sources {[ "covidex" := source_for_doc2 v ]}) true)
    "covid" ["covidex"] meta_scale =
  mret {| row_ncols := 3;
          row_entries := {[ 2 := Num (v * meta_scale) ]} |}.
Proof.
  unfold scored_row.
  destruct (common_term_raw_row
              (with_sources {[ "covidex" := source_for_doc2 v ]}) true)
    as [E1 E2]; [done|].
  rewrite E1, ret_bind, E2, ret_bind.
  unfold add_meta_scores. simpl. cbn [foldlM].
  by rewrite boost_doc2_round, ret_bind.
Qed.

Lemma other_source_row_fails meta_scale :
  scored_row (tools := example_tools) other_source_ranker
    "covid" ["covidex"] meta_scale = raise KeyError.
Proof.
  unfold scored_row, other_source_ranker.
  destruct (common_term_raw_row
              (with_sources {[ "cord" := source_for_doc2 5 ]}) true)
    as [E1 E2]; [done|].
  rewrite E1, ret_bind, E2, ret_bind.
  unfold add_meta_scores. simpl. cbn [foldlM].
  by rewrite add_meta_score_missing.
Qed.

Lemma doc2_meta_ok v name :
  meta_ok 3 {[ name := source_for_doc2 v ]} "covid" [name].
Proof.
  repeat constructor. exists (source_for_doc2 v).
  split; [by rewrite lookup_singleton_eq|].
  unfold source_ok. simpl. rewrite lookup_singleton_eq.
  split; [repeat constructor; lia|]. exists [v].
  rewrite lookup_singleton_eq. split; [done|by left].
Qed.

Lemma broadcast_meta_ok :
  meta_ok 3 {[ "covidex" := source_broadcast ]} "covid" ["covidex"].
Proof.
  repeat constructor. exists source_broadcast.
  split; [by rewrite lookup_singleton_eq|].
  unfold source_ok. simpl. rewrite lookup_singleton_eq.
  split; [repeat constructor; lia|]. exists [5%R].
  rewrite lookup_singleton_eq. split; [done|by right].
Qed.

(** A run of [scored_row_boosts]: one boost value broadcast to the two
    listed documents. *)
Lemma scored_row_boosts_witness :
  ∃ res,
    returns (scored_row (tools := example_tools) broadcast_ranker
               "covid" ["covidex"] 100) res ∧
    cell res 0 =
    fadd (dot [(1, Num 0)] (mat_rows (doc_mat broadcast_ranker)) 0)
         (Num (total_boost {[ "covidex" := source_broadcast ]}
                 "covid" ["covidex"] 0 * 100)) ∧
    total_boost {[ "covidex" := source_broadcast ]} "covid" ["covidex"] 0 =
      (5 + 0)%R ∧
    total_boost {[ "covidex" := source_broadcast ]} "covid" ["covidex"] 2 =
      (5 + 0)%R.
Proof.
  destruct (common_term_raw_row
              (with_sources {[ "covidex" := source_broadcast ]}) true)
    as [E1 E2]; [done|].
  destruct (scored_row_boosts (tools := example_tools) (np := example_sort)
              broadcast_ranker "covid" ["covidex"] 100
              {| sv_ncols := 2; sv_entries := [(1, Num 0)] |}
              {| row_ncols := 3; row_entries := ∅ |}
              {[ "covidex" := source_broadcast ]})
    as [Hboost _].
  - unfold broadcast_ranker. by rewrite E1.
  - unfold broadcast_ranker. by rewrite E2.
  - done.
  - done.
  - destruct (Hboost broadcast_meta_ok) as (res & Hr & Hc & _).
    exists res. split; [done|]. split; [apply Hc|].
    unfold total_boost, boost_of. simpl. by rewrite !lookup_singleton_eq.
Defined.

Lemma relisted_round meta_scale :
  add_meta_score {[ "covidex" := source_relisted ]} "covid" meta_scale
    {| row_ncols := 3; row_entries := ∅ |} "covidex" =
  mret {| row_ncols := 3;
          row_entries := {[ 2 := Num (7 * meta_scale) ]} |}.
Proof.
  rewrite (add_meta_score_key _ _ _ _ _ source_relisted [2; 2] [5%R; 7%R]);
    [|by rewrite lookup_singleton_eq|done|done|by left
     |repeat constructor; simpl; lia].
  unfold row_set_many, boosted_values, broadcast_values, cell. simpl.
  rewrite lookup_empty. simpl.
  by rewrite !Rplus_0_l, insert_insert_eq, insert_empty.
Qed.

Lemma relisted_row meta_scale :
  scored_row (tools := example_tools) relisted_ranker
    "covid" ["covidex"] meta_scale =
  mret {| row_ncols := 3;
          row_entries := {[ 2 := Num (7 * meta_scale) ]} |}.
Proof.
  unfold scored_row, relisted_ranker.
  destruct (common_term_raw_row
              (with_sources {[ "covidex" := source_relisted ]}) true)
    as [E1 E2]; [done|].
  rewrite E1, ret_bind, E2, ret_bind.
  unfold add_meta_scores. simpl. cbn [foldlM].
  by rewrite relisted_round, ret_bind.
Qed.

(** C4 fails as stated: a requested source name that does not match any
    name of the table ("covidex" against a table that only knows "cord")
    does not leave the scores as they are, the call stops with a
    [KeyError]; and a document listed twice under the key, with the
    values 5 and 7, is boosted by the value of its last listing only,
    not by both. *)
Lemma doc_scores_unknown_source_raises :
  doc_scores (tools := example_tools) other_source_ranker
    ("covid", [0]) ["covidex"] 100 = raise KeyError ∧
  doc_scores (tools := example_tools) relisted_ranker
    ("covid", [2]) ["covidex"] 100 = mret [Num (7 * 100)].
Proof.
  split.
  - unfold doc_scores. by rewrite other_source_row_fails.
  - unfold doc_scores. rewrite relisted_row, ret_bind.
    rewrite row_get_many_eq by (repeat constructor; simpl; lia).
    unfold cell. simpl. by rewrite lookup_singleton_eq.
Qed.

(** C3 fails as stated: [closest_docs] has a failure path of its own, on
    a query that does have a hashed n-gram. *)
Lemma closest_docs_fails_on_valid_query :
  query_wids (tools := example_tools) other_source_ranker "covid" = [1] ∧
  closest_docs (tools := example_tools) (np := example_sort)
    other_source_ranker "covid" ["covidex"] 100 1 = raise KeyError.
Proof.
  split; [done|]. unfold closest_docs. by rewrite other_source_row_fails.
Qed.

(** C2 fails as stated: with [k = 1] the only result is document 2, whose
    dot product with the query vector is 0 (it came in through the meta
    boost); and with [k = -1] the call returns an empty result, which is
    not "at most k" results. *)
Lemma closest_docs_returns_boosted_document :
  closest_docs (tools := example_tools) (np := example_sort) boosted_ranker
    "covid" ["covidex"] 100 1 = mret ([2], [Num (5 * 100)]) ∧
  (∃ spvec,
     text2spvec (tools := example_tools) boosted_ranker "covid" = mret spvec ∧
     dot (sv_entries spvec) (mat_rows (doc_mat boosted_ranker)) 2 = Num 0) ∧
  closest_docs (tools := example_tools) (np := example_sort) boosted_ranker
    "covid" ["covidex"] 100 (-1) = mret ([], []).
Proof.
  assert (∀ k, closest_docs (tools := example_tools) (np := example_sort)
                 boosted_ranker "covid" ["covidex"] 100 k =
               (o_sort ← top_positions (np := example_sort) [Num (5 * 100)] k;
                doc_scores ← index_many [Num (5 * 100)] o_sort;
                doc_ids ← index_many [2] o_sort;
                mret (doc_ids, doc_scores))) as E.
  { intros k. unfold closest_docs, boosted_ranker.
    rewrite doc2_boosted_row, ret_bind. unfold res_data, res_indices. simpl.
    by rewrite map_to_list_singleton. }
  split; [by rewrite E|]. split; [|by rewrite E].
  destruct (common_term_raw_row
              (with_sources {[ "covidex" := source_for_doc2 5 ]}) true)
    as [E1 _]; [done|].
  eexists. split; [exact E1|]. by apply dot_zero_vec; repeat constructor.
Qed.

(** A run of [closest_docs_results]. *)
Lemma closest_docs_results_witness :
  ∃ ids scores,
    returns (closest_docs (tools := example_tools) (np := example_sort)
               boosted_ranker "covid" ["covidex"] 100 1) (ids, scores) ∧
    length ids ≤ 1.
Proof.
  destruct (closest_docs_results (tools := example_tools) (np := example_sort)
              boosted_ranker "covid" ["covidex"] 100 1
              {| row_ncols := 3; row_entries := {[ 2 := Num (5 * 100) ]} |})
    as (ids & scores & spvec & Hr & _ & Hlen & _).
  - unfold boosted_ranker. by rewrite doc2_boosted_row.
  - lia.
  - by exists ids, scores.
Defined.

Lemma two_boosts_row meta_scale :
  scored_row (tools := example_tools) two_boosts_ranker
    "covid" ["covidex"] meta_scale =
  mret {| row_ncols := 3;
          row_entries := <[ 2 := Num (7 * meta_scale) ]>
                           {[ 0 := Num (5 * meta_scale) ]} |}.
Proof.
  unfold scored_row, two_boosts_ranker.
  destruct (common_term_raw_row
              (with_sources {[ "covidex" := source_two_docs ]}) true)
    as [E1 E2]; [done|].
  rewrite E1, ret_bind, E2, ret_bind.
  unfold add_meta_scores. simpl. cbn [foldlM].
  rewrite (add_meta_score_key _ _ _ _ _ source_two_docs [0; 2] [5%R; 7%R]);
    [|by rewrite lookup_singleton_eq|done|done|by left
     |repeat constructor; simpl; lia].
  rewrite ret_bind.
  unfold row_set_many, boosted_values, broadcast_values, cell. simpl.
  rewrite !lookup_empty. simpl. by rewrite !Rplus_0_l, insert_empty.
Qed.

(** A run of [closest_docs_selection] with two candidates and [k = 1]:
    the partition branch picks the one position that is returned. *)
Lemma closest_docs_selection_witness :
  let res := {| row_ncols := 3;
                row_entries := <[ 2 := Num (7 * 100) ]>
                                 {[ 0 := Num (5 * 100) ]} |} in
  (1 < Z.of_nat (length (res_data res)))%Z ∧
  top_positions (np := example_sort) (res_data res) 1 =
    mret (subsort (np := example_sort) (fneg <$> res_data res)
            (take 1 (argpartition (NumpySort := example_sort)
                       (fneg <$> res_data res) 1))) ∧
  ∃ ids scores full,
    returns (closest_docs (tools := example_tools) (np := example_sort)
               two_boosts_ranker "covid" ["covidex"] 100 1) (ids, scores) ∧
    full ≡ₚ map_to_list (row_entries res) ∧
    zip ids scores = take 1 full.
Proof.
  intros res.
  assert ((1 < Z.of_nat (length (res_data res)))%Z) as Hlen.
  { unfold res_data. rewrite length_fmap, length_map_to_list. simpl.
    rewrite map_size_insert_None by (by apply lookup_singleton_ne).
    rewrite map_size_singleton. lia. }
  destruct (closest_docs_selection (tools := example_tools)
              (np := example_sort) two_boosts_ranker "covid" ["covidex"] 100 1
              res)
    as (_ & Hpart & ids & scores & full & Hr & Hp & _ & Hz & _).
  - unfold res. by rewrite two_boosts_row.
  - lia.
  - split; [done|]. split; [by apply Hpart|].
    by exists ids, scores, full.
Defined.

(** C6 fails as stated: the candidates are the stored entries of the
    score row, not the documents with a nonzero score.  With
    [meta_scale = 0] the boost stores the score 0 for document 2, which
    has no nonzero-scored candidate beside it, and [closest_docs] returns
    that zero-scored document. *)
Lemma closest_docs_returns_zero_score :
  closest_docs (tools := example_tools) (np := example_sort) boosted_ranker
    "covid" ["covidex"] 0 1 = mret ([2], [Num (5 * 0)]) ∧
  (5 * 0 = 0)%R.
Proof.
  split; [|lra]. unfold closest_docs, boosted_ranker.
  rewrite doc2_boosted_row, ret_bind. unfold res_data, res_indices. simpl.
  by rewrite map_to_list_singleton.
Qed.

(** ** When the score row is there *)

Lemma returns_add_meta_score_ncols sources query meta_scale res m res' :
  returns (add_meta_score sources query meta_scale res m) res' →
  row_ncols res' = row_ncols res.
Proof.
  unfold add_meta_score. intros (src & _ & Hr)%returns_bind.
  destruct (ms_positions src !! query) as [positions|].
  - apply returns_bind in Hr as (cur & _ & Hr).
    apply returns_bind in Hr as (values & _ & Hr).
    apply returns_bind in Hr as (new & _ & Hr).
    by apply returns_ret in Hr as <-.
  - by apply returns_ret in Hr as <-.
Qed.

Lemma returns_add_meta_loop_ncols sources query meta_scale meta res res' :
  returns (foldlM (add_meta_score sources query meta_scale) res meta) res' →
  row_ncols res' = row_ncols res.
Proof.
  revert res. induction meta as [|m meta IH]; intros res Hr.
  - by apply returns_ret in Hr as <-.
  - cbn [foldlM] in Hr. apply returns_bind in Hr as (res1 & H1 & Hr).
    rewrite (IH _ Hr). by eapply returns_add_meta_score_ncols.
Qed.

Section ScoredRow.
Context {tools : TextTools}.

Lemma returns_add_meta_scores_ncols self query meta meta_scale res res' :
  returns (add_meta_scores self query meta meta_scale res) res' →
  row_ncols res' = row_ncols res.
Proof.
  unfold add_meta_scores. case_decide.
  - destruct (dd_sources (doc_dict self)).
    + apply returns_add_meta_loop_ncols.
    + by intros <-%returns_ret.
  - by intros <-%returns_ret.
Qed.

Lemma scored_row_ncols self query meta meta_scale res :
  returns (scored_row self query meta meta_scale) res →
  row_ncols res = mat_ncols (doc_mat self).
Proof.
  intros (spvec & raw & _ & Hraw & Hr)%returns_scored_row.
  rewrite (returns_add_meta_scores_ncols _ _ _ _ _ _ Hr).
  by eapply csr_mul_ncols.
Qed.

Lemma returns_text2spvec_ncols self query spvec :
  returns (text2spvec self query) spvec → sv_ncols spvec = hash_size self.
Proof.
  unfold text2spvec. case_decide.
  - destruct (strict self); [done|].
    intros (_ & _ & Hr)%returns_bind. by apply returns_ret in Hr as <-.
  - intros ([data wids_unique] & _ & Hr)%returns_bind.
    by apply returns_ret in Hr as <-.
Qed.

Lemma add_meta_scores_total self query meta meta_scale res :
  row_ncols res = mat_ncols (doc_mat self) →
  tables_ok self query meta →
  ∃ res', add_meta_scores self query meta meta_scale res = mret res'.
Proof.
  intros Hn Hok. unfold add_meta_scores. case_decide as Hlen; [|by eexists].
  destruct (dd_sources (doc_dict self)) as [sources|] eqn:Es; [|by eexists].
  specialize (Hok Hlen sources Es). rewrite <-Hn in Hok.
  destruct (add_meta_loop_ok sources query meta_scale meta res Hok)
    as (res' & E & _).
  by exists res'.
Qed.

(** The score row can only fail the way the vectoriser fails, as long as
    the shapes agree and the meta tables are acceptable. *)
Lemma scored_row_raises self query meta meta_scale e :
  length (mat_rows (doc_mat self)) = hash_size self →
  tables_ok self query meta →
  raises (scored_row self query meta meta_scale) e →
  raises (text2spvec self query) e.
Proof.
  intros Hrows Hok. unfold scored_row.
  intros [Hr|(spvec & Hs & Hr)]%raises_bind; [done|]. exfalso.
  pose proof (returns_text2spvec_ncols _ _ _ Hs) as Hn.
  assert (returns (csr_mul spvec (doc_mat self))
            {| row_ncols := mat_ncols (doc_mat self);
               row_entries := filter (λ kv, fnonzero kv.2)
                 (accumulate (sv_entries spvec) (mat_rows (doc_mat self))) |})
    as Hraw by (apply returns_csr_mul; split; [congruence|done]).
  apply raises_bind in Hr as [Hr|(raw & Hraw' & Hr)].
  { by eapply returns_raises. }
  destruct (add_meta_scores_total self query meta meta_scale raw)
    as (res' & E); [by eapply csr_mul_ncols|done|].
  rewrite E in Hr. done.
Qed.

Lemma doc_scores_cells self query idxs meta meta_scale res :
  returns (scored_row self query meta meta_scale) res →
  Forall (λ d, d < mat_ncols (doc_mat self)) idxs →
  returns (doc_scores self (query, idxs) meta meta_scale) (cell res <$> idxs).
Proof.
  intros Hres Hr. unfold doc_scores. apply returns_bind. exists res.
  split; [done|]. rewrite row_get_many_eq; [by apply returns_ret|].
  by rewrite (scored_row_ncols _ _ _ _ _ Hres).
Qed.

Lemma doc_scores_raises self query idxs meta meta_scale e :
  Forall (λ d, d < mat_ncols (doc_mat self)) idxs →
  raises (doc_scores self (query, idxs) meta meta_scale) e →
  raises (scored_row self query meta meta_scale) e.
Proof.
  intros Hr. unfold doc_scores.
  intros [?|(res & Hres & He)]%raises_bind; [done|]. exfalso.
  rewrite row_get_many_eq in He; [done|].
  by rewrite (scored_row_ncols _ _ _ _ _ Hres).
Qed.

(** A document that shares no feature with the query and that no
    requested source lists has no stored score. *)
Lemma scored_row_unscored self query meta meta_scale res spvec d :
  returns (scored_row self query meta meta_scale) res →
  returns (text2spvec self query) spvec →
  ¬ shares_feature (sv_entries spvec) (mat_rows (doc_mat self)) d →
  (∀ sources, dd_len (doc_dict self) = 4 →
              dd_sources (doc_dict self) = Some sources →
              ¬ listed sources query meta d) →
  cell res d = fzero.
Proof.
  intros Hres Hs Hnf Hnl. unfold cell.
  destruct (row_entries res !! d) as [s|] eqn:E; [|done]. exfalso.
  destruct (scored_row_stored self query meta meta_scale res spvec d)
    as [Hnz|(Hlen & sources & Es & Hl)]; [done|done|by eexists| |].
  - rewrite dot_no_shared_feature in Hnz by done. by destruct Hnz.
  - by eapply Hnl.
Qed.

End ScoredRow.

Section SubsetScores.
Context {tools : TextTools}.

(** The score row, cell by cell: the dot product plus the boost. *)
Lemma scored_row_cells self query meta meta_scale spvec :
  returns (text2spvec self query) spvec →
  length (mat_rows (doc_mat self)) = hash_size self →
  tables_ok self query meta →
  ∃ res, returns (scored_row self query meta meta_scale) res ∧
    ∀ d, cell res d = boosted_score self query meta meta_scale
                        (sv_entries spvec) d.
Proof.
  intros Hs Hrows Hok.
  pose proof (returns_text2spvec_ncols _ _ _ Hs) as Hn.
  set (raw := {| row_ncols := mat_ncols (doc_mat self);
                 row_entries := filter (λ kv, fnonzero kv.2)
                   (accumulate (sv_entries spvec)
                      (mat_rows (doc_mat self))) |}).
  assert (returns (csr_mul spvec (doc_mat self)) raw) as Hraw
    by (apply returns_csr_mul; split; [congruence|done]).
  assert (∀ res, returns (add_meta_scores self query meta meta_scale raw) res →
                 returns (scored_row self query meta meta_scale) res) as Hrow.
  { intros res Hr. apply returns_scored_row. by exists spvec, raw. }
  unfold boosted_score, meta_boost, tables_ok in *.
  destruct (decide (dd_len (doc_dict self) = 4)) as [Hlen|Hlen].
  - destruct (dd_sources (doc_dict self)) as [sources|] eqn:Es.
    + specialize (Hok Hlen sources eq_refl).
      rewrite <-(csr_mul_ncols _ _ _ Hraw) in Hok.
      destruct (add_meta_loop_ok sources query meta_scale meta raw Hok)
        as (res & E & _ & Hc & _).
      exists res. split.
      * apply Hrow. rewrite (add_meta_scores_on _ _ _ _ _ sources) by done.
        by rewrite E.
      * intros d. by rewrite Hc, (csr_mul_cell _ _ _ _ Hraw).
    + exists raw. split.
      * apply Hrow. unfold add_meta_scores. by rewrite decide_True, Es.
      * intros d. rewrite Rmult_0_l, fadd_zero_r.
        apply (csr_mul_cell _ _ _ _ Hraw).
  - exists raw. split.
    + apply Hrow. by rewrite add_meta_scores_off.
    + intros d. rewrite Rmult_0_l, fadd_zero_r.
      apply (csr_mul_cell _ _ _ _ Hraw).
Qed.

(** C5, as amended.  When the query vector is computed, on an index of
    consistent shape (as many matrix rows as hashed buckets, the matrix as
    wide as the document dictionary) whose table holds every requested
    meta source, and for requested indices below [num_docs]: [doc_scores]
    returns one value per requested index, in the caller's order, the
    i-th being the boosted score of the i-th requested document, that is
    its dot product with the query vector plus [meta_scale] times the
    boost values that the requested sources apply to it under the raw
    query string.  The value is 0 for a document that shares no hashed
    feature with the query and that no requested source lists. *)
Theorem doc_scores_in_order self query idxs meta meta_scale spvec :
  returns (text2spvec self query) spvec →
  length (mat_rows (doc_mat self)) = hash_size self →
  mat_ncols (doc_mat self) = num_docs self →
  tables_ok self query meta →
  Forall (λ d, d < num_docs self) idxs →
  ∃ scores,
    returns (doc_scores self (query, idxs) meta meta_scale) scores ∧
    length scores = length idxs ∧
    (∀ i d, idxs !! i = Some d →
       scores !! i = Some (boosted_score self query meta meta_scale
                             (sv_entries spvec) d)) ∧
    (∀ i d, idxs !! i = Some d →
       ¬ shares_feature (sv_entries spvec) (mat_rows (doc_mat self)) d →
       (∀ sources, dd_len (doc_dict self) = 4 →
                   dd_sources (doc_dict self) = Some sources →
                   ¬ listed sources query meta d) →
       scores !! i = Some fzero).
Proof.
  intros Hs Hrows Hcols Hok Hr. rewrite <-Hcols in Hr.
  destruct (scored_row_cells self query meta meta_scale spvec Hs Hrows Hok)
    as (res & Hres & Hcells).
  exists (cell res <$> idxs). split; [by apply doc_scores_cells|].
  split; [by rewrite length_fmap|]. split.
  - intros i d Hi. by rewrite list_lookup_fmap, Hi, <-Hcells.
  - intros i d Hi Hnf Hnl. rewrite list_lookup_fmap, Hi. simpl. f_equal.
    by eapply scored_row_unscored.
Qed.

End SubsetScores.

Section EmptyQuery.
Context {tools : TextTools} {np : NumpySort}.

Lemma text2spvec_empty_strict self query :
  query_wids self query = [] → strict self = true →
  text2spvec self query = raise (RuntimeError (no_valid_word query)).
Proof. intros Hw Hs. unfold text2spvec. by rewrite Hw, Hs. Qed.

Lemma text2spvec_empty_lenient self query :
  query_wids self query = [] → strict self = false →
  text2spvec self query =
  MkM [LogWarning (no_valid_word query)]
      (inr {| sv_ncols := hash_size self; sv_entries := [] |}).
Proof. intros Hw Hs. unfold text2spvec. by rewrite Hw, Hs. Qed.

Lemma text2spvec_raises self query e :
  1 < hash_size self → length (doc_freqs self) = hash_size self →
  raises (text2spvec self query) e →
  query_wids self query = [] ∧ strict self = true ∧
  e = RuntimeError (no_valid_word query).
Proof.
  intros Hpos Hlen Hr.
  destruct (decide (query_wids self query = [])) as [Hw|Hw].
  - destruct (strict self) eqn:Hs.
    + rewrite text2spvec_empty_strict in Hr by done. by injection Hr as <-.
    + by rewrite text2spvec_empty_lenient in Hr.
  - destruct (text2spvec_nonempty self query Hw Hpos Hlen) as (Ns & _ & E).
    by rewrite E in Hr.
Qed.

Lemma closest_docs_raises self query meta meta_scale (k : Z) e :
  (0 ≤ k)%Z →
  raises (closest_docs self query meta meta_scale k) e →
  raises (scored_row self query meta meta_scale) e.
Proof.
  intros Hk Hr.
  destruct (returns_or_raises (scored_row self query meta meta_scale))
    as [[res Hres]|[e' He']].
  - destruct (closest_docs_top self query meta meta_scale k res Hres Hk)
      as (ids & scores & _ & Hret & _).
    by destruct (returns_raises _ _ _ Hret Hr).
  - unfold closest_docs in Hr. apply raises_bind in Hr as [?|(res & Hres & _)];
      [done|]. by destruct (returns_raises _ _ _ Hres He').
Qed.

(** C3, as amended.  On an index of consistent shape (at least two hashed
    buckets, shared by the document-frequency vector and the rows of the
    matrix), for a query without any hashed feature: in strict mode [text2spvec] raises the Empty-Query
    error, and [closest_docs] and [doc_scores] raise that very error; in
    non-strict mode [text2spvec] logs one warning and returns the all-zero
    vector of dimension [hash_size].  The vectoriser has no other failure.
    The two ranking calls fail in no other way as long as the meta tables
    are acceptable (every requested source in the table), [k >= 0] and the
    requested indices are in range. *)
Theorem empty_query_failure self query meta meta_scale (k : Z) idxs :
  index_ok self →
  (query_wids self query = [] → strict self = true →
     text2spvec self query = raise (RuntimeError (no_valid_word query)) ∧
     closest_docs self query meta meta_scale k =
       raise (RuntimeError (no_valid_word query)) ∧
     doc_scores self (query, idxs) meta meta_scale =
       raise (RuntimeError (no_valid_word query))) ∧
  (query_wids self query = [] → strict self = false →
     text2spvec self query =
     MkM [LogWarning (no_valid_word query)]
         (inr {| sv_ncols := hash_size self; sv_entries := [] |})) ∧
  (∀ e, raises (text2spvec self query) e →
        query_wids self query = [] ∧ strict self = true ∧
        e = RuntimeError (no_valid_word query)) ∧
  (tables_ok self query meta → (0 ≤ k)%Z →
     ∀ e, raises (closest_docs self query meta meta_scale k) e →
          e = RuntimeError (no_valid_word query)) ∧
  (tables_ok self query meta →
     Forall (λ d, d < mat_ncols (doc_mat self)) idxs →
     ∀ e, raises (doc_scores self (query, idxs) meta meta_scale) e →
          e = RuntimeError (no_valid_word query)).
Proof.
  intros (Hpos & Hdf & Hrows). split; [|split; [|split; [|split]]].
  - intros Hw Hs. unfold closest_docs, doc_scores, scored_row.
    by rewrite text2spvec_empty_strict.
  - apply text2spvec_empty_lenient.
  - intros e. by apply text2spvec_raises.
  - intros Hok Hk e He. apply closest_docs_raises in He; [|done].
    apply scored_row_raises in He; [|done|done].
    by apply text2spvec_raises in He as (_ & _ & ->).
  - intros Hok Hr e He. apply doc_scores_raises in He; [|done].
    apply scored_row_raises in He; [|done|done].
    by apply text2spvec_raises in He as (_ & _ & ->).
Qed.

End EmptyQuery.

(** A run of [empty_query_failure]: the empty query on a strict index. *)
Lemma empty_query_failure_witness :
  index_ok common_term_ranker ∧
  text2spvec (tools := example_tools) common_term_ranker "" =
  raise (RuntimeError (no_valid_word "")).
Proof.
  assert (index_ok common_term_ranker) as Hok by (repeat split; simpl; lia).
  split; [done|].
  destruct (empty_query_failure (tools := example_tools) (np := example_sort)
              common_term_ranker "" [] 1 1 [] Hok) as (Hstrict & _).
  by destruct Hstrict as (E & _).
Defined.

Lemma boosted_tables_ok v name meta :
  meta_ok 3 {[ name := source_for_doc2 v ]} "covid" meta →
  tables_ok
    (make_ranker [[]; [(0, 1%R); (1, 1%R)]] 3 [0; 2]
       (with_sources {[ name := source_for_doc2 v ]}) true) "covid" meta.
Proof. intros Hok _ sources [= <-]. exact Hok. Qed.

(** A run of [doc_scores_in_order]: documents 0 and 2 of the boosted
    index. *)
Lemma doc_scores_in_order_witness :
  ∃ scores,
    returns (doc_scores (tools := example_tools) boosted_ranker
               ("covid", [0; 2]) ["covidex"] 100) scores ∧
    length scores = 2 ∧
    scores !! 1 = Some (boosted_score boosted_ranker "covid" ["covidex"] 100
                          [(1, Num 0)] 2).
Proof.
  destruct (common_term_raw_row
              (with_sources {[ "covidex" := source_for_doc2 5 ]}) true)
    as [E1 _]; [done|].
  destruct (doc_scores_in_order (tools := example_tools) boosted_ranker
              "covid" [0; 2] ["covidex"] 100
              {| sv_ncols := 2; sv_entries := [(1, Num 0)] |})
    as (scores & Hr & Hlen & Hsc & _).
  - unfold boosted_ranker. by rewrite E1.
  - done.
  - done.
  - apply boosted_tables_ok, doc2_meta_ok.
  - change (num_docs boosted_ranker) with 3. repeat constructor; lia.
  - exists scores. split; [done|]. split; [done|]. by apply Hsc.
Defined.

(** C5 fails as stated: on the strict index the query without any hashed
    n-gram makes [doc_scores] raise instead of returning one number per
    index; and document 2, which shares no hashed feature with the query
    "covid" (it is in no row of the matrix), gets the score 500 from the
    meta boost, not 0. *)
Lemma doc_scores_raises_or_boosts :
  doc_scores (tools := example_tools) common_term_ranker ("", [0]) [] 1 =
    raise (RuntimeError (no_valid_word "")) ∧
  doc_scores (tools := example_tools) boosted_ranker
    ("covid", [2]) ["covidex"] 100 = mret [Num (5 * 100)] ∧
  ¬ shares_feature [(1, Num 0)] (mat_rows (doc_mat boosted_ranker)) 2.
Proof.
  split; [|split].
  - unfold doc_scores, scored_row.
    by rewrite (text2spvec_empty_strict (tools := example_tools)).
  - unfold doc_scores, boosted_ranker. rewrite doc2_boosted_row, ret_bind.
    rewrite row_get_many_eq by (repeat constructor; simpl; lia).
    unfold cell. simpl. by rewrite lookup_singleton_eq.
  - intros (j & v & Hin & Hd). apply list_elem_of_singleton in Hin as [= -> ->].
    simpl in Hd. apply elem_of_cons in Hd as [?|Hd]; [done|].
    apply elem_of_cons in Hd as [?|Hd]; [done|]. by apply elem_of_nil in Hd.
Qed.

(** ** Batches *)

Lemma M_eta {A} (c : M A) : c = MkM (logged c) (outcome c).
Proof. by destruct c. Qed.

Lemma completion_order_perm clock n : completion_order clock n ≡ₚ seq 0 n.
Proof. unfold completion_order. apply merge_sort_Permutation. Qed.

Lemma elem_of_completion_order clock n i :
  i ∈ completion_order clock n ↔ i < n.
Proof. rewrite completion_order_perm, elem_of_seq. lia. Qed.

Lemma omap_lookup_seq {B} (g : nat → option B) (ys : list B) s :
  (∀ i y, ys !! i = Some y → g (s + i) = Some y) →
  omap g (seq s (length ys)) = ys.
Proof.
  revert s. induction ys as [|y ys IH]; intros s Hg; [done|].
  pose proof (Hg 0 y eq_refl) as H0. rewrite Nat.add_0_r in H0.
  csimpl. rewrite H0. simpl. f_equal. apply IH. intros i y' Hi.
  replace (S s + i) with (s + S i) by lia. by apply Hg.
Qed.

Section Pool.
Context {A B : Type} (f : A → M B) (xs : list A).

Lemma pool_fold_slots_notin order (st : pool_state B) i :
  i ∉ order → (foldl (pool_step f xs) st order).1.2 !! i = st.1.2 !! i.
Proof.
  revert st. induction order as [|j order IH]; intros st Hi; [done|].
  apply not_elem_of_cons in Hi as [Hij Hi]. cbn [foldl]. rewrite IH by done.
  unfold pool_step. destruct (xs !! j) as [x|]; [|done].
  destruct (outcome (f x)); [done|]. simpl. by rewrite lookup_insert_ne.
Qed.

Lemma pool_fold_slots_in order (st : pool_state B) i x y :
  i ∈ order → xs !! i = Some x → returns (f x) y →
  (foldl (pool_step f xs) st order).1.2 !! i = Some y.
Proof.
  intros Hi Hx Hy. revert st Hi.
  induction order as [|j order IH]; intros st Hi; [by apply elem_of_nil in Hi|].
  cbn [foldl]. destruct (decide (i ∈ order)) as [Hin|Hnin]; [by apply IH|].
  apply elem_of_cons in Hi as [<-|?]; [|done].
  rewrite pool_fold_slots_notin by done.
  unfold pool_step. rewrite Hx. unfold returns in Hy. rewrite Hy. simpl.
  by rewrite lookup_insert_eq.
Qed.

Lemma pool_fold_failed_kept order (st : pool_state B) e :
  st.2 = Some e → (foldl (pool_step f xs) st order).2 = Some e.
Proof.
  revert st. induction order as [|j order IH]; intros st He; [done|].
  cbn [foldl]. apply IH. unfold pool_step.
  destruct (xs !! j) as [x|]; [|done].
  destruct (outcome (f x)); simpl; [by rewrite He|done].
Qed.

Lemma pool_fold_failed_from order (st : pool_state B) e :
  (foldl (pool_step f xs) st order).2 = Some e →
  st.2 = Some e ∨ ∃ i x, i ∈ order ∧ xs !! i = Some x ∧ raises (f x) e.
Proof.
  revert st. induction order as [|j order IH]; intros st He; [by left|].
  cbn [foldl] in He. apply IH in He as [He|(i & x & Hi & Hx & Hr)].
  - unfold pool_step in He. destruct (xs !! j) as [x|] eqn:Hx; [|by left].
    destruct (outcome (f x)) as [e'|y] eqn:Ho; simpl in He; [|by left].
    destruct st.2 as [e0|]; simpl in He; [by left|].
    injection He as ->. right. exists j, x. split; [by left|done].
  - right. exists i, x. split; [by right|done].
Qed.

Lemma pool_fold_failed_in order (st : pool_state B) i x e :
  i ∈ order → xs !! i = Some x → raises (f x) e →
  ∃ e', (foldl (pool_step f xs) st order).2 = Some e'.
Proof.
  intros Hi Hx He. revert st Hi.
  induction order as [|j order IH]; intros st Hi; [by apply elem_of_nil in Hi|].
  cbn [foldl]. apply elem_of_cons in Hi as [<-|Hi]; [|by apply IH].
  eexists. apply pool_fold_failed_kept.
  unfold pool_step. rewrite Hx. unfold raises in He. by rewrite He.
Qed.

Lemma pool_fold_silent order (st : pool_state B) :
  (∀ x, x ∈ xs → logged (f x) = []) →
  (foldl (pool_step f xs) st order).1.1 = st.1.1.
Proof.
  intros Hq. revert st. induction order as [|j order IH]; intros st; [done|].
  cbn [foldl]. rewrite IH. unfold pool_step.
  destruct (xs !! j) as [x|] eqn:Hx; [|done].
  rewrite (Hq x) by (by eapply list_elem_of_lookup_2).
  destruct (outcome (f x)); simpl; by rewrite app_nil_r.
Qed.

Lemma ThreadPool_map_refused num_workers clock :
  ¬ workers_ok num_workers →
  ThreadPool_map num_workers clock f xs = raise ValueError.
Proof. intros Hw. unfold ThreadPool_map. by rewrite decide_False. Qed.

(** [map] returns exactly when the pool accepts the worker count and
    every call returns, and then it returns the results in input order,
    whatever the completion order. *)
Lemma returns_ThreadPool_map num_workers clock outs :
  returns (ThreadPool_map num_workers clock f xs) outs ↔
  workers_ok num_workers ∧ Forall2 (λ x y, returns (f x) y) xs outs.
Proof.
  unfold ThreadPool_map. case_decide as Hw; [|split; [done|by intros [? _]]].
  set (order := completion_order clock (length xs)).
  set (st := foldl (pool_step f xs) ([], ∅, None) order).
  assert (∀ ys, Forall2 (λ x y, returns (f x) y) xs ys →
                omap (λ i, st.1.2 !! i) (seq 0 (length xs)) = ys) as Houts.
  { intros ys Hys. rewrite (Forall2_length _ _ _ Hys).
    apply omap_lookup_seq. intros i y Hi. simpl.
    destruct (Forall2_lookup_r _ _ _ _ _ Hys Hi) as (x & Hx & Hy).
    apply (pool_fold_slots_in _ _ _ x); [|done|done].
    apply elem_of_completion_order. by eapply lookup_lt_Some. }
  split.
  - intros Hr. split; [done|].
    destruct st.2 as [e|] eqn:Hf; [done|].
    destruct (mapM_total f xs) as [ys Hys].
    { intros x Hx. destruct (returns_or_raises (f x)) as [?|[e He]]; [done|].
      apply list_elem_of_lookup in Hx as [i Hi].
      destruct (pool_fold_failed_in order ([], ∅, None) i x e) as [e' He'];
        [|done|done|].
      - apply elem_of_completion_order. by eapply lookup_lt_Some.
      - fold st in He'. congruence. }
    apply returns_mapM in Hys. rewrite (Houts ys Hys) in Hr.
    unfold returns in Hr. simpl in Hr. by injection Hr as <-.
  - intros [_ Hys]. destruct st.2 as [e|] eqn:Hf.
    + apply pool_fold_failed_from in Hf as [?|(i & x & _ & Hx & He)]; [done|].
      destruct (Forall2_lookup_l _ _ _ _ _ Hys Hx) as (y & _ & Hy).
      by destruct (returns_raises _ _ _ Hy He).
    + unfold returns. simpl. by rewrite (Houts outs Hys).
Qed.

(** An exception that leaves [map] is the pool's refusal of the worker
    count or one that a call raised. *)
Lemma raises_ThreadPool_map num_workers clock e :
  raises (ThreadPool_map num_workers clock f xs) e →
  (¬ workers_ok num_workers ∧ e = ValueError) ∨
  (workers_ok num_workers ∧ ∃ x, x ∈ xs ∧ raises (f x) e).
Proof.
  unfold ThreadPool_map. case_decide as Hw.
  - set (st := foldl (pool_step f xs) ([], ∅, None)
                  (completion_order clock (length xs))).
    intros Hr. right. split; [done|].
    destruct st.2 as [e'|] eqn:Hf; [|done].
    unfold raises in Hr. simpl in Hr. injection Hr as ->.
    apply pool_fold_failed_from in Hf as [?|(i & x & _ & Hx & He)]; [done|].
    exists x. split; [by eapply list_elem_of_lookup_2|done].
  - intros [= <-]. by left.
Qed.

Lemma logged_ThreadPool_map_silent num_workers clock :
  (∀ x, x ∈ xs → logged (f x) = []) →
  logged (ThreadPool_map num_workers clock f xs) = [].
Proof.
  intros Hq. unfold ThreadPool_map. case_decide; [|done].
  pose proof (pool_fold_silent (completion_order clock (length xs))
                ([], ∅, None) Hq) as Hl.
  set (st := foldl (pool_step f xs) ([], ∅, None)
               (completion_order clock (length xs))) in *.
  by destruct st.2.
Qed.

End Pool.

Section Batch.
Context {tools : TextTools} {np : NumpySort}.

(** C7, as amended.  For a worker count that the pool accepts (none
    given, or at least 1) and whatever the order in which the pool
    completes the calls: each ranking batch returns a sequence exactly
    when the single-item operation returns on every item, and then the
    output has the length and order of the input, its i-th element being
    what the single-item operation returns on the i-th input with the
    same parameters; so what a batch returns under one accepted worker
    count and completion order it returns under any other.
    [batch_doc_meta] always returns the records of its inputs, in order,
    and logs nothing.  ([batch_doc_scores] pairs queries and index lists
    position by position.) *)
Theorem batch_results self queries doc_idxs pmids meta meta_scale (k : Z)
    num_workers clock :
  workers_ok num_workers →
  (∀ outs, returns (batch_closest_docs self queries meta meta_scale k
                      num_workers clock) outs ↔
           Forall2 (λ q out, returns (closest_docs self q meta meta_scale k) out)
                   queries outs) ∧
  (∀ outs, returns (batch_doc_scores self queries doc_idxs meta meta_scale
                      num_workers clock) outs ↔
           Forall2 (λ qd out, returns (doc_scores self qd meta meta_scale) out)
                   (zip queries doc_idxs) outs) ∧
  batch_doc_meta self pmids num_workers clock =
    mret (doc_meta self <$> pmids) ∧
  (∀ num_workers' clock', workers_ok num_workers' →
     (∀ outs, returns (batch_closest_docs self queries meta meta_scale k
                         num_workers clock) outs ↔
              returns (batch_closest_docs self queries meta meta_scale k
                         num_workers' clock') outs) ∧
     (∀ outs, returns (batch_doc_scores self queries doc_idxs meta meta_scale
                         num_workers clock) outs ↔
              returns (batch_doc_scores self queries doc_idxs meta meta_scale
                         num_workers' clock') outs)).
Proof.
  intros Hw. unfold batch_closest_docs, batch_doc_scores, batch_doc_meta.
  split; [|split; [|split]].
  - intros outs. rewrite returns_ThreadPool_map. tauto.
  - intros outs. rewrite returns_ThreadPool_map. tauto.
  - rewrite (M_eta (ThreadPool_map _ _ _ _)).
    rewrite logged_ThreadPool_map_silent by done.
    assert (returns (ThreadPool_map num_workers clock
                       (λ p, mret (doc_meta self p)) pmids)
                    (doc_meta self <$> pmids)) as Hr.
    { apply returns_ThreadPool_map. split; [done|].
      apply Forall2_fmap_r, Forall_Forall2_diag, Forall_forall.
      intros p _. by apply returns_ret. }
    unfold returns in Hr. by rewrite Hr.
  - intros num_workers' clock' Hw'. split; intros outs;
      rewrite !returns_ThreadPool_map; tauto.
Qed.

End Batch.

Lemma boosted_top_document :
  closest_docs (tools := example_tools) (np := example_sort) boosted_ranker
    "covid" ["covidex"] 100 1 = mret ([2], [Num (5 * 100)]).
Proof.
  unfold closest_docs, boosted_ranker.
  rewrite doc2_boosted_row, ret_bind. unfold res_data, res_indices. simpl.
  by rewrite map_to_list_singleton.
Qed.

Lemma boosted_doc_scores_run :
  doc_scores (tools := example_tools) boosted_ranker
    ("covid", [2; 0]) ["covidex"] 100 = mret [Num (5 * 100); fzero].
Proof.
  unfold doc_scores, boosted_ranker. rewrite doc2_boosted_row, ret_bind.
  by rewrite row_get_many_eq by (repeat constructor; simpl; lia).
Qed.

(** A run of [batch_results]: two queries on two workers, the second
    call completing first. *)
Lemma batch_results_witness :
  returns (batch_closest_docs (tools := example_tools) (np := example_sort)
             boosted_ranker ["covid"; "covid"] ["covidex"] 100 1
             (Some 2%Z) (λ i, 1 - i))
          [([2], [Num (5 * 100)]); ([2], [Num (5 * 100)])] ∧
  returns (batch_doc_scores (tools := example_tools)
             boosted_ranker ["covid"; "covid"] [[2; 0]; [2; 0]]
             ["covidex"] 100 (Some 2%Z) (λ i, 1 - i))
          [[Num (5 * 100); fzero]; [Num (5 * 100); fzero]].
Proof.
  assert (workers_ok (Some 2%Z)) as Hw by (simpl; lia).
  destruct (batch_results (tools := example_tools) (np := example_sort)
              boosted_ranker ["covid"; "covid"] [[2; 0]; [2; 0]] []
              ["covidex"] 100 1 (Some 2%Z) (λ i, 1 - i) Hw)
    as (Hclosest & Hscores & _).
  split.
  - apply Hclosest. repeat constructor; by rewrite boosted_top_document.
  - apply Hscores. repeat constructor; by rewrite boosted_doc_scores_run.
Defined.

(** C7 fails as stated: with the worker count 0 the pool refuses to start
    and the batch raises, so it does not return the results of the
    single-item operation for every worker count. *)
Lemma batch_refuses_zero_workers :
  batch_doc_meta common_term_ranker ["d0"; "d1"] (Some 0%Z) (λ i, i) =
    raise ValueError ∧
  doc_meta common_term_ranker "d0" = ∅.
Proof.
  split; [|done]. unfold batch_doc_meta.
  apply ThreadPool_map_refused. simpl. lia.
Qed.

(** ** The metadata resolver *)

(** C9.  [doc_meta] never fails: it is the empty record when [doc_dict]
    has fewer than three components (no metadata map loaded) and when the
    id is not a key of the metadata map, and the record stored for the id
    otherwise. *)
Theorem doc_meta_lookup self (doc_id : string) :
  (dd_len (doc_dict self) < 3 → doc_meta self doc_id = ∅) ∧
  (∀ metas, dd_metas (doc_dict self) = Some metas →
            3 ≤ dd_len (doc_dict self) ∧
            (metas !! doc_id = None → doc_meta self doc_id = ∅) ∧
            (∀ record, metas !! doc_id = Some record →
                       doc_meta self doc_id = record)) ∧
  (dd_metas (doc_dict self) = None ↔ dd_len (doc_dict self) < 3).
Proof.
  unfold doc_meta. split; [|split].
  - intros Hlen. by rewrite decide_False by lia.
  - intros metas Hm.
    assert (3 ≤ dd_len (doc_dict self)) as Hlen
      by (destruct (doc_dict self); simpl in *; (done || lia)).
    split; [done|]. rewrite decide_True, Hm by done.
    split; [by intros ->|by intros record ->].
  - destruct (doc_dict self); simpl; split; (done || lia).
Qed.

(** ** Raising the meta scale *)

Section ClosestPairs.
Context {tools : TextTools} {np : NumpySort}.

(** Each (document, score) pair that [closest_docs] returns is a stored
    entry of the score row. *)
Lemma closest_docs_pairs self query meta meta_scale (k : Z) res ids scores :
  returns (scored_row self query meta meta_scale) res →
  returns (closest_docs self query meta meta_scale k) (ids, scores) →
  Forall2 (λ d y, row_entries res !! d = Some y) ids scores.
Proof.
  intros Hres. unfold closest_docs.
  intros (res' & Hres' & Hr)%returns_bind.
  assert (res' = res) as -> by (by eapply returns_inj).
  apply returns_bind in Hr as (o_sort & _ & Hr).
  apply returns_bind in Hr as (scores' & Hsc & Hr).
  apply returns_bind in Hr as (ids' & Hid & Hr).
  apply returns_ret in Hr. injection Hr as <- <-.
  apply returns_index_many in Hsc, Hid. clear Hres Hres'.
  revert ids' Hid. induction Hsc as [|i y o scores' Hy _ IH];
    intros ids' Hid; inversion Hid as [|? d ? ids'' Hd Hid']; subst;
    constructor; [|by apply IH].
  apply elem_of_map_to_list. unfold res_data, res_indices in *.
  rewrite list_lookup_fmap in Hy. rewrite list_lookup_fmap in Hd.
  destruct (map_to_list (row_entries res) !! i) as [[d' y']|] eqn:E;
    simpl in *; [|done].
  injection Hy as <-. injection Hd as <-. by eapply list_elem_of_lookup_2.
Qed.

End ClosestPairs.

(** Addition is monotone in both arguments, and so is scaling a
    non-negative boost value; nothing else about the arithmetic is used
    for the monotonicity of the boosted score. *)
Lemma fadd_np_le_mono (a b x y : fval) :
  np_le a b → np_le x y → is_finite x → is_finite y →
  np_le (fadd a x) (fadd b y).
Proof.
  destruct a as [a|], b as [b|], x as [x|], y as [y|]; simpl; try done. lra.
Qed.

Lemma scale_mono (v s1 s2 : R) :
  (0 <= v)%R → (s1 <= s2)%R → np_le (Num (v * s1)) (Num (v * s2)).
Proof. intros Hv Hs. simpl. nra. Qed.

Lemma add_meta_loop_monotone sources query meta (s1 s2 : R) d res1 res2 :
  meta_ok (row_ncols res1) sources query meta →
  row_ncols res2 = row_ncols res1 →
  boosts_nonneg sources query meta d → (s1 <= s2)%R →
  np_le (cell res1 d) (cell res2 d) →
  ∃ res1' res2',
    foldlM (add_meta_score sources query s1) res1 meta = mret res1' ∧
    foldlM (add_meta_score sources query s2) res2 meta = mret res2' ∧
    np_le (cell res1' d) (cell res2' d).
Proof.
  unfold meta_ok, boosts_nonneg. intros Hok Hn Hb Hs. revert res1 res2 Hok Hn.
  induction Hb as [|m meta Hm _ IH]; intros res1 res2 Hok Hn Hle.
  - by exists res1, res2.
  - apply Forall_cons in Hok as [(src & E & Hsrc) Hok].
    destruct (add_meta_score_ok sources query s1 res1 m src E Hsrc)
      as (r1 & E1 & Hn1 & Hc1 & _).
    rewrite <-Hn in Hsrc.
    destruct (add_meta_score_ok sources query s2 res2 m src E Hsrc)
      as (r2 & E2 & Hn2 & Hc2 & _).
    destruct (IH r1 r2) as (res1' & res2' & F1 & F2 & Hle').
    + by rewrite Hn1.
    + congruence.
    + rewrite Hc1, Hc2. apply fadd_np_le_mono; [done| |done|done].
      apply scale_mono; [by apply Hm|done].
    + exists res1', res2'. cbn [foldlM]. by rewrite E1, E2, !ret_bind.
Qed.

Section Monotone.
Context {tools : TextTools} {np : NumpySort}.

(** C8, as amended.  With the query, the index and the requested meta
    sources fixed (tables acceptable), raising [meta_scale] does not lower
    the score of a document to which no requested source applies a
    negative boost value: neither the score [doc_scores] returns for it
    nor the score [closest_docs] returns with it (a NaN score stays
    NaN).  The argument goes round by round through the meta loop and
    uses only that addition and scaling by a non-negative value are
    monotone. *)
Theorem meta_scale_monotone self query meta (s1 s2 : R) spvec raw sources d :
  returns (text2spvec self query) spvec →
  returns (csr_mul spvec (doc_mat self)) raw →
  dd_len (doc_dict self) = 4 →
  dd_sources (doc_dict self) = Some sources →
  meta_ok (mat_ncols (doc_mat self)) sources query meta →
  d < mat_ncols (doc_mat self) →
  boosts_nonneg sources query meta d → (s1 <= s2)%R →
  (∃ y1 y2,
     returns (doc_scores self (query, [d]) meta s1) [y1] ∧
     returns (doc_scores self (query, [d]) meta s2) [y2] ∧
     np_le y1 y2) ∧
  (∀ (k : Z) ids1 scores1 ids2 scores2 i j y1 y2,
     returns (closest_docs self query meta s1 k) (ids1, scores1) →
     returns (closest_docs self query meta s2 k) (ids2, scores2) →
     ids1 !! i = Some d → scores1 !! i = Some y1 →
     ids2 !! j = Some d → scores2 !! j = Some y2 →
     np_le y1 y2).
Proof.
  intros Hs Hraw Hlen Hsrc Hok Hd Hb Hle.
  pose proof Hok as Hok'. rewrite <-(csr_mul_ncols _ _ _ Hraw) in Hok'.
  destruct (add_meta_loop_monotone sources query meta s1 s2 d raw raw)
    as (res1 & res2 & E1 & E2 & Hcells); [done|done|done|done| |].
  { apply np_le_refl. }
  assert (∀ s res,
            foldlM (add_meta_score sources query s) raw meta = mret res →
            returns (scored_row self query meta s) res) as Hrow.
  { intros s res E. apply returns_scored_row. exists spvec, raw.
    split; [done|]. split; [done|].
    rewrite (add_meta_scores_on _ _ _ _ _ sources) by done.
    rewrite E. by apply returns_ret. }
  pose proof (Hrow s1 res1 E1) as Hres1.
  pose proof (Hrow s2 res2 E2) as Hres2.
  split.
  - exists (cell res1 d), (cell res2 d).
    split; [|split; [|done]].
    + apply (doc_scores_cells self query [d]); [done|by repeat constructor].
    + apply (doc_scores_cells self query [d]); [done|by repeat constructor].
  - intros k ids1 scores1 ids2 scores2 i j y1 y2 Hr1 Hr2 Hi1 Hy1 Hi2 Hy2.
    pose proof (closest_docs_pairs _ _ _ _ _ _ _ _ Hres1 Hr1) as Hp1.
    pose proof (closest_docs_pairs _ _ _ _ _ _ _ _ Hres2 Hr2) as Hp2.
    pose proof (Forall2_lookup_lr _ _ _ _ _ _ Hp1 Hi1 Hy1) as E1'.
    pose proof (Forall2_lookup_lr _ _ _ _ _ _ Hp2 Hi2 Hy2) as E2'.
    unfold cell in Hcells. by rewrite E1', E2' in Hcells.
Qed.

End Monotone.

(** C8 fails as stated: document 2 is boosted by the value -1, so its
    score goes down when [meta_scale] goes from 1 to 2. *)
Lemma negative_boost_decreases :
  doc_scores (tools := example_tools) penalised_ranker
    ("covid", [2]) ["covidex"] 1 = mret [Num (-1 * 1)] ∧
  doc_scores (tools := example_tools) penalised_ranker
    ("covid", [2]) ["covidex"] 2 = mret [Num (-1 * 2)] ∧
  (-1 * 2 < -1 * 1)%R.
Proof.
  unfold doc_scores, penalised_ranker.
  rewrite !doc2_boosted_row, !ret_bind. split; [done|]. split; [done|]. lra.
Qed.

(** A run of [meta_scale_monotone]: document 2 of the boosted index. *)
Lemma meta_scale_monotone_witness :
  ∃ y1 y2,
    returns (doc_scores (tools := example_tools) boosted_ranker
               ("covid", [2]) ["covidex"] 1) [y1] ∧
    returns (doc_scores (tools := example_tools) boosted_ranker
               ("covid", [2]) ["covidex"] 2) [y2] ∧
    np_le y1 y2.
Proof.
  destruct (common_term_raw_row
              (with_sources {[ "covidex" := source_for_doc2 5 ]}) true)
    as [E1 E2]; [done|].
  destruct (meta_scale_monotone (tools := example_tools) (np := example_sort)
              boosted_ranker "covid" ["covidex"] 1 2
              {| sv_ncols := 2; sv_entries := [(1, Num 0)] |}
              {| row_ncols := 3; row_entries := ∅ |}
              {[ "covidex" := source_for_doc2 5 ]} 2)
    as (Hscores & _).
  - unfold boosted_ranker. by rewrite E1.
  - unfold boosted_ranker. by rewrite E2.
  - done.
  - done.
  - apply doc2_meta_ok.
  - simpl. lia.
  - constructor; [|constructor]. intros src0. rewrite lookup_singleton_eq.
    intros [= <-]. unfold boost_of. simpl.
    rewrite !lookup_singleton_eq. simpl. lra.
  - lra.
  - exact Hscores.
Defined.

(** ** The key of the meta lookup *)



Section RawKey.
Context {tools : TextTools} {np : NumpySort}.




End RawKey.




(** * Further properties of the ranker *)

(** ** The shape of the IDF weight *)

Lemma idf_ratio_above_one (N Nt : nat) :
  2 * Nt < N → (1 < (INR N - INR Nt + 0.5) / (INR Nt + 0.5))%R.
Proof.
  intros Hlt. apply lt_INR in Hlt. rewrite mult_INR in Hlt. simpl in Hlt.
  pose proof (pos_INR Nt).
  apply Rmult_lt_reg_r with (INR Nt + 0.5)%R; [lra|].
  unfold Rdiv. rewrite Rmult_assoc, Rinv_l; lra.
Qed.

Lemma idf_ratio_antitone (N Nt1 Nt2 : nat) :
  Nt1 ≤ Nt2 → Nt2 ≤ N →
  ((INR N - INR Nt2 + 0.5) / (INR Nt2 + 0.5)
   <= (INR N - INR Nt1 + 0.5) / (INR Nt1 + 0.5))%R.
Proof.
  intros H12 H2N. apply le_INR in H12, H2N.
  pose proof (pos_INR Nt1). pose proof (pos_INR Nt2).
  assert (/ (INR Nt2 + 0.5) <= / (INR Nt1 + 0.5))%R as Hinv
    by (apply Rinv_le_contravar; lra).
  assert (0 < / (INR Nt2 + 0.5))%R by (apply Rinv_0_lt_compat; lra).
  unfold Rdiv. nra.
Qed.

(** The clamp of the IDF bites exactly from half of the corpus on: a
    bucket found in at least half of the documents (and in no more than
    all of them) weighs 0, a bucket found in fewer than half weighs a
    positive number. *)
Theorem idf_half_corpus_cutoff (N Nt : nat) :
  Nt ≤ N →
  (N ≤ 2 * Nt → idf N Nt = Num 0) ∧
  (2 * Nt < N → ∃ x, idf N Nt = Num x ∧ (0 < x)%R).
Proof.
  intros Hle. split; [by apply idf_zero|].
  intros Hlt. rewrite idf_in_range by done. eexists. split; [done|].
  pose proof (idf_ratio_above_one N Nt Hlt) as Hr.
  assert (0 < ln ((INR N - INR Nt + 0.5) / (INR Nt + 0.5)))%R as Hln
    by (rewrite <-ln_1; apply ln_increasing; lra).
  rewrite Rmax_right; lra.
Qed.

(** A run of [idf_half_corpus_cutoff]: a bucket found in 2 of 3
    documents. *)
Lemma idf_half_corpus_cutoff_witness : 2 ≤ 3 ∧ idf 3 2 = Num 0.
Proof.
  assert (2 ≤ 3) as H by lia. split; [done|].
  destruct (idf_half_corpus_cutoff 3 2 H) as [Hz _]. apply Hz. lia.
Defined.

(** The IDF weight never grows with the document frequency: of two
    buckets, the one found in more documents (at most all of them) does
    not weigh more. *)
Theorem idf_antitone (N Nt1 Nt2 : nat) :
  Nt1 ≤ Nt2 → Nt2 ≤ N →
  ∃ x1 x2, idf N Nt1 = Num x1 ∧ idf N Nt2 = Num x2 ∧ (x2 <= x1)%R.
Proof.
  intros H12 H2N. rewrite !idf_in_range by lia.
  eexists _, _. split; [done|]. split; [done|].
  apply Rle_max_compat_l.
  pose proof (idf_ratio_antitone N Nt1 Nt2 H12 H2N) as Hr.
  pose proof (idf_ratio_pos N Nt2 H2N) as Hpos.
  destruct Hr as [Hr|Hr]; [left; by apply ln_increasing|rewrite Hr; lra].
Qed.

(** A run of [idf_antitone]: document frequencies 1 and 2 among 5
    documents. *)
Lemma idf_antitone_witness :
  ∃ x1 x2, idf 5 1 = Num x1 ∧ idf 5 2 = Num x2 ∧ (x2 <= x1)%R.
Proof.
  assert (1 ≤ 2) as H1 by lia. assert (2 ≤ 5) as H2 by lia.
  exact (idf_antitone 5 1 2 H1 H2).
Defined.

(** ** The two return modes of the vectoriser *)

Lemma returns_tfidf_data_length self wids data wids_unique :
  returns (tfidf_data self wids) (data, wids_unique) →
  wids_unique = (np_unique wids).*1 ∧ length data = length wids_unique.
Proof.
  unfold tfidf_data. intros (Ns & HNs & Hr)%returns_bind.
  apply returns_ret in Hr. injection Hr as <- <-. split; [done|].
  apply returns_freqs_at in HNs as [_ HNs].
  apply returns_index_many, Forall2_length in HNs.
  rewrite length_zip_with, !length_fmap. rewrite !length_fmap in HNs. lia.
Qed.

Section ReturnModes.
Context {tools : TextTools}.

(** [text2spvec(query, val_idx=True)] and [text2spvec(query)] carry the
    same information: they fail and log alike, the two arrays of the first
    have the same length, and zipped they are the stored entries of the
    matrix that the second returns. *)
Theorem text2spvec_val_idx_agrees self query :
  text2spvec self query =
    ('(data, wids_unique) ← text2spvec_val_idx self query;
     mret {| sv_ncols := hash_size self;
             sv_entries := zip wids_unique data |}) ∧
  (∀ data wids_unique,
     returns (text2spvec_val_idx self query) (data, wids_unique) →
     length data = length wids_unique).
Proof.
  unfold text2spvec, text2spvec_val_idx. split.
  - case_decide; [|done]. by destruct (strict self).
  - intros data wids_unique. case_decide.
    + destruct (strict self); [done|].
      intros (_ & _ & Hr)%returns_bind. apply returns_ret in Hr.
      by injection Hr as <- <-.
    + by intros [_ ?]%returns_tfidf_data_length.
Qed.

End ReturnModes.

(** ** Word order *)

Lemma remove_dups_perm (l1 l2 : list nat) :
  l1 ≡ₚ l2 → remove_dups l1 ≡ₚ remove_dups l2.
Proof.
  intros Hp. apply NoDup_Permutation; [apply NoDup_remove_dups..|].
  intros x. by rewrite !elem_of_remove_dups, Hp.
Qed.

Lemma occurrences_perm t (l1 l2 : list nat) :
  l1 ≡ₚ l2 → occurrences t l1 = occurrences t l2.
Proof. intros Hp. unfold occurrences. by rewrite Hp. Qed.

Lemma np_unique_perm (l1 l2 : list nat) :
  l1 ≡ₚ l2 → np_unique l1 = np_unique l2.
Proof.
  intros Hp. unfold np_unique.
  assert (merge_sort (≤) (remove_dups l1) = merge_sort (≤) (remove_dups l2))
    as ->.
  { apply (StronglySorted_unique (≤));
      [apply StronglySorted_merge_sort; apply _..|].
    by rewrite !merge_sort_Permutation, (remove_dups_perm l1 l2). }
  apply list_fmap_ext. intros _ t _. f_equal. by apply occurrences_perm.
Qed.

Section WordOrder.
Context {tools : TextTools}.

(** The query vector is a bag-of-words vector: two queries whose hashed
    n-grams are the same up to order (and not empty) get the same
    vector. *)
Theorem text2spvec_word_order self query1 query2 :
  query_wids self query1 ≡ₚ query_wids self query2 →
  query_wids self query1 ≠ [] →
  text2spvec self query1 = text2spvec self query2.
Proof.
  intros Hp Hne. unfold text2spvec.
  assert (query_wids self query2 ≠ []) as Hne2.
  { intros E. rewrite E in Hp. by apply Permutation_nil_r in Hp. }
  rewrite !decide_False by (by intros ?%nil_length_inv).
  unfold tfidf_data. by rewrite (np_unique_perm _ _ Hp).
Qed.

End WordOrder.

(** A run of [text2spvec_word_order]: "ab covid" and "covid ab", whose
    words land in the two buckets in the two orders. *)
Lemma text2spvec_word_order_witness :
  query_wids (tools := example_tools) common_term_ranker "ab covid" = [0; 1] ∧
  query_wids (tools := example_tools) common_term_ranker "covid ab" = [1; 0] ∧
  text2spvec (tools := example_tools) common_term_ranker "ab covid" =
  text2spvec (tools := example_tools) common_term_ranker "covid ab".
Proof.
  split; [done|]. split; [done|].
  apply (text2spvec_word_order (tools := example_tools)); [|done].
  change ([0; 1] ≡ₚ [1; 0]). apply perm_swap.
Defined.

(** ** Stored scores stay within the row *)

Lemma accumulate_in_range sp B d :
  matrix_ok B → is_Some (accumulate sp (mat_rows B) !! d) → d < mat_ncols B.
Proof.
  intros Hok (j & v & _ & Hd)%accumulate_dom.
  rewrite list_lookup_total_alt in Hd.
  destruct (mat_rows B !! j) as [row|] eqn:E; simpl in Hd;
    [|by apply elem_of_nil in Hd].
  unfold matrix_ok in Hok. rewrite Forall_forall in Hok.
  specialize (Hok row (list_elem_of_lookup_2 _ _ _ E)).
  rewrite Forall_forall in Hok.
  apply list_elem_of_fmap in Hd as ([k b] & -> & Hin). by apply Hok in Hin.
Qed.

Lemma csr_mul_in_range spvec B res :
  matrix_ok B → returns (csr_mul spvec B) res → row_in_range res.
Proof.
  intros Hok (_ & ->)%returns_csr_mul d [s Hs]. simpl in *.
  apply map_lookup_filter_Some in Hs as [Hs _].
  by apply (accumulate_in_range (sv_entries spvec)); [|eexists].
Qed.

Lemma returns_row_get_many res idxs cur :
  returns (row_get_many res idxs) cur →
  Forall (λ d, d < row_ncols res) idxs ∧ cur = cell res <$> idxs.
Proof.
  unfold row_get_many. intros Hr%returns_mapM.
  induction Hr as [|d y idxs cur Hd _ [IH1 IH2]]; [done|].
  unfold row_get in Hd. case_decide; [|done].
  apply returns_ret in Hd as <-. split; [by constructor|]. by rewrite IH2.
Qed.

Lemma returns_add_meta_score_in_range sources query meta_scale res m res' :
  returns (add_meta_score sources query meta_scale res m) res' →
  row_in_range res → row_in_range res'.
Proof.
  intros Hr Hin d Hd.
  rewrite (returns_add_meta_score_ncols _ _ _ _ _ _ Hr).
  unfold add_meta_score in Hr. apply returns_bind in Hr as (src & _ & Hr).
  destruct (ms_positions src !! query) as [positions|].
  - apply returns_bind in Hr as (cur & [Hpos _]%returns_row_get_many & Hr).
    apply returns_bind in Hr as (values & _ & Hr).
    apply returns_bind in Hr as (new & _ & Hr).
    apply returns_ret in Hr as <-. unfold row_set_many in Hd. simpl in Hd.
    apply foldl_insert_dom in Hd as [Hd|Hd]; [|by apply Hin].
    apply list_elem_of_fmap in Hd as ([d' x] & -> & Hz).
    apply elem_of_zip_l in Hz. rewrite Forall_forall in Hpos. by apply Hpos.
  - apply returns_ret in Hr as <-. by apply Hin.
Qed.

Lemma returns_add_meta_loop_in_range sources query meta_scale meta res res' :
  returns (foldlM (add_meta_score sources query meta_scale) res meta) res' →
  row_in_range res → row_in_range res'.
Proof.
  revert res. induction meta as [|m meta IH]; intros res Hr Hin.
  - by apply returns_ret in Hr as <-.
  - cbn [foldlM] in Hr. apply returns_bind in Hr as (res1 & H1 & Hr).
    eapply IH; [done|]. by eapply returns_add_meta_score_in_range.
Qed.

Section InRange.
Context {tools : TextTools} {np : NumpySort}.

Lemma scored_row_in_range self query meta meta_scale res :
  matrix_ok (doc_mat self) →
  returns (scored_row self query meta meta_scale) res → row_in_range res.
Proof.
  intros Hok (spvec & raw & _ & Hraw & Hr)%returns_scored_row.
  pose proof (csr_mul_in_range _ _ _ Hok Hraw) as Hin.
  unfold add_meta_scores in Hr. case_decide.
  - destruct (dd_sources (doc_dict self)).
    + by eapply returns_add_meta_loop_in_range.
    + by apply returns_ret in Hr as <-.
  - by apply returns_ret in Hr as <-.
Qed.

Lemma returns_closest_docs_row self query meta meta_scale (k : Z) ids scores :
  returns (closest_docs self query meta meta_scale k) (ids, scores) →
  ∃ res, returns (scored_row self query meta meta_scale) res ∧
         Forall2 (λ d y, row_entries res !! d = Some y) ids scores.
Proof.
  intros Hr. pose proof Hr as Hr'. unfold closest_docs in Hr'.
  apply returns_bind in Hr' as (res & Hres & _).
  exists res. split; [done|]. by eapply closest_docs_pairs.
Qed.

Lemma closest_docs_ids_cells self query meta meta_scale (k : Z) ids scores :
  matrix_ok (doc_mat self) →
  returns (closest_docs self query meta meta_scale k) (ids, scores) →
  ∃ res, returns (scored_row self query meta meta_scale) res ∧
         Forall (λ d, d < mat_ncols (doc_mat self)) ids ∧
         scores = cell res <$> ids.
Proof.
  intros Hok (res & Hres & Hpairs)%returns_closest_docs_row.
  pose proof (scored_row_in_range _ _ _ _ _ Hok Hres) as Hin.
  unfold row_in_range in Hin.
  rewrite (scored_row_ncols _ _ _ _ _ Hres) in Hin.
  exists res. split; [done|].
  induction Hpairs as [|d y ids scores Hd _ [IH1 IH2]]; [done|].
  split.
  - constructor; [|done]. apply Hin. by eexists.
  - rewrite fmap_cons, <-IH2. unfold cell. by rewrite Hd.
Qed.

(** On a matrix whose stored column indices are below its width, every
    document index that [closest_docs] returns is below that width; so
    when the index-to-id list has one id per column, [get_doc_id]
    resolves every returned index. *)
Theorem closest_docs_ids_resolve self query meta meta_scale (k : Z) ids scores :
  matrix_ok (doc_mat self) →
  returns (closest_docs self query meta meta_scale k) (ids, scores) →
  Forall (λ d, d < mat_ncols (doc_mat self)) ids ∧
  (length (dd_idx2id (doc_dict self)) = mat_ncols (doc_mat self) →
   ∃ names, returns (mapM (get_doc_id self) ids) names ∧
            length names = length ids).
Proof.
  intros Hok Hr.
  destruct (closest_docs_ids_cells _ _ _ _ _ _ _ Hok Hr)
    as (res & Hres & Hids & _).
  split; [done|]. intros Hlen.
  destruct (index_many_total (dd_idx2id (doc_dict self)) ids) as [names Hn].
  { by rewrite Hlen. }
  exists names. split; [done|].
  apply returns_index_many, Forall2_length in Hn. done.
Qed.

(** What [closest_docs] returns, [doc_scores] confirms: asked for the
    documents that [closest_docs] returned (same query, sources and
    scale), [doc_scores] returns the very scores that came with them. *)
Theorem doc_scores_of_closest_docs self query meta meta_scale (k : Z)
    ids scores :
  matrix_ok (doc_mat self) →
  returns (closest_docs self query meta meta_scale k) (ids, scores) →
  returns (doc_scores self (query, ids) meta meta_scale) scores.
Proof.
  intros Hok Hr.
  destruct (closest_docs_ids_cells _ _ _ _ _ _ _ Hok Hr)
    as (res & Hres & Hids & ->).
  by apply doc_scores_cells.
Qed.

End InRange.

Lemma boosted_matrix_ok : matrix_ok (doc_mat boosted_ranker).
Proof. repeat constructor; simpl; lia. Qed.

(** A run of [closest_docs_ids_resolve]. *)
Lemma closest_docs_ids_resolve_witness :
  Forall (λ d, d < 3) [2] ∧
  ∃ names, returns (mapM (get_doc_id boosted_ranker) [2]) names ∧
           length names = 1.
Proof.
  destruct (closest_docs_ids_resolve (tools := example_tools)
              (np := example_sort) boosted_ranker "covid" ["covidex"] 100 1
              [2] [Num (5 * 100)] boosted_matrix_ok) as [Hids Hnames].
  - by rewrite boosted_top_document.
  - split; [exact Hids|]. by apply Hnames.
Defined.

(** A run of [doc_scores_of_closest_docs]. *)
Lemma doc_scores_of_closest_docs_witness :
  returns (doc_scores (tools := example_tools) boosted_ranker
             ("covid", [2]) ["covidex"] 100) [Num (5 * 100)].
Proof.
  apply (doc_scores_of_closest_docs (tools := example_tools)
           (np := example_sort) boosted_ranker "covid" ["covidex"] 100 1).
  - exact boosted_matrix_ok.
  - by rewrite boosted_top_document.
Defined.

(** ** How many results, and which indices are accepted *)

Lemma bind_returns_ext {A B} (c : M A) (f g : A → M B) x :
  returns c x → f x = g x → c ≫= f = c ≫= g.
Proof.
  unfold returns, mbind, M_bind. intros Hc E. rewrite Hc. by rewrite E.
Qed.

Lemma row_get_many_out_of_range res idxs :
  Exists (λ d, row_ncols res ≤ d) idxs →
  raises (row_get_many res idxs) IndexError.
Proof.
  unfold row_get_many. induction idxs as [|d idxs IH]; intros Hex.
  - by apply Exists_nil in Hex.
  - cbn [mapM]. destruct (decide (d < row_ncols res)) as [Hd|Hd].
    + rewrite row_get_eq, ret_bind by done. apply raises_bind. left.
      apply IH. apply Exists_cons in Hex as [?|?]; [lia|done].
    + apply raises_bind. left. unfold row_get. by rewrite decide_False.
Qed.

Section Counting.
Context {tools : TextTools} {np : NumpySort}.

(** For [k >= 0], [closest_docs] returns exactly [min(k, n)] results,
    [n] being the number of stored entries of the score row, as many
    scores as document indices, and no document twice. *)
Theorem closest_docs_count self query meta meta_scale (k : Z) res ids scores :
  returns (scored_row self query meta meta_scale) res → (0 ≤ k)%Z →
  returns (closest_docs self query meta meta_scale k) (ids, scores) →
  length ids = Z.to_nat k `min` size (row_entries res) ∧
  length scores = length ids ∧
  NoDup ids.
Proof.
  intros Hres Hk Hr.
  destruct (closest_docs_top self query meta meta_scale k res Hres Hk)
    as (ids' & scores' & full & Hret & Hperm & _ & Hzip & Hlen).
  assert ((ids', scores') = (ids, scores)) as [= -> ->]
    by (by eapply returns_inj).
  assert (ids = (take (Z.to_nat k) full).*1) as Hids
    by (rewrite <-Hzip, fst_zip; [done|lia]).
  split; [|split; [done|]].
  - by rewrite Hids, length_fmap, length_take, Hperm, length_map_to_list.
  - rewrite Hids, fmap_take.
    assert (NoDup full.*1) as Hnd
      by (rewrite Hperm; apply NoDup_fst_map_to_list).
    exact (sublist_NoDup _ _ Hnd (sublist_take _ _)).
Qed.

(** [doc_scores] accepts a list of document indices exactly when each is
    below the number of columns of the matrix: then it returns the cells
    of the score row, and a single index at or beyond that bound makes
    the call stop with an [IndexError]. *)
Theorem doc_scores_index_check self query idxs meta meta_scale res :
  returns (scored_row self query meta meta_scale) res →
  (Forall (λ d, d < mat_ncols (doc_mat self)) idxs →
     returns (doc_scores self (query, idxs) meta meta_scale)
             (cell res <$> idxs)) ∧
  (Exists (λ d, mat_ncols (doc_mat self) ≤ d) idxs →
     raises (doc_scores self (query, idxs) meta meta_scale) IndexError).
Proof.
  intros Hres. split; [by apply doc_scores_cells|].
  intros Hex. unfold doc_scores. apply raises_bind. right.
  exists res. split; [done|]. apply row_get_many_out_of_range.
  by rewrite (scored_row_ncols _ _ _ _ _ Hres).
Qed.

(** A negative [k] on a score row with [n > 0] stored entries: from
    [-n] up, [closest_docs] behaves as with [k + n] (all but the [-k]
    lowest-scored entries), and below [-n] it stops with the
    [ValueError] of [np.argpartition]. *)
Theorem closest_docs_negative_k self query meta meta_scale (k : Z) res :
  returns (scored_row self query meta meta_scale) res →
  0 < size (row_entries res) → (k < 0)%Z →
  ((- Z.of_nat (size (row_entries res)) ≤ k)%Z →
     closest_docs self query meta meta_scale k =
     closest_docs self query meta meta_scale
       (k + Z.of_nat (size (row_entries res)))) ∧
  ((k < - Z.of_nat (size (row_entries res)))%Z →
     raises (closest_docs self query meta meta_scale k) ValueError).
Proof.
  intros Hres Hpos Hk.
  assert (length (res_data res) = size (row_entries res)) as Hn
    by (unfold res_data; by rewrite length_fmap, length_map_to_list).
  set (n := size (row_entries res)) in *. split.
  - intros Hlow. unfold closest_docs.
    apply (bind_returns_ext _ _ _ res Hres). f_equal.
    unfold top_positions. rewrite Hn.
    rewrite !decide_False by lia.
    unfold np_argpartition. rewrite length_fmap, Hn.
    rewrite (decide_True (P := (k < 0)%Z)) by done.
    rewrite (decide_False (P := (k + Z.of_nat n < 0)%Z)) by lia.
    rewrite decide_True by lia. rewrite !ret_bind.
    set (part := argpartition (fneg <$> res_data res)
                   (Z.to_nat (k + Z.of_nat n))).
    assert (length part = n) as Hp.
    { unfold part. rewrite argpartition_perm by (rewrite length_fmap; lia).
      by rewrite length_seq, length_fmap. }
    unfold slice_to. rewrite decide_True by done.
    rewrite decide_False by lia. rewrite Hp.
    by replace (n - Z.to_nat (- k)) with (Z.to_nat (k + Z.of_nat n)) by lia.
  - intros Hlow. unfold closest_docs. apply raises_bind. right.
    exists res. split; [done|]. apply raises_bind. left.
    unfold top_positions. rewrite Hn, decide_False by lia.
    apply raises_bind. left. unfold np_argpartition.
    rewrite length_fmap, Hn.
    rewrite (decide_True (P := (k < 0)%Z)) by done.
    by rewrite decide_False by lia.
Qed.

End Counting.

Lemma boosted_row_returns :
  returns (scored_row (tools := example_tools) boosted_ranker
             "covid" ["covidex"] 100)
          {| row_ncols := 3; row_entries := {[ 2 := Num (5 * 100) ]} |}.
Proof. unfold boosted_ranker. by rewrite doc2_boosted_row. Qed.

(** A run of [closest_docs_count]. *)
Lemma closest_docs_count_witness :
  length [2] =
    Z.to_nat 1 `min` size ({[ 2 := Num (5 * 100) ]} : gmap nat fval) ∧
  length [Num (5 * 100)] = length [2] ∧
  NoDup [2].
Proof.
  apply (closest_docs_count (tools := example_tools) (np := example_sort)
           boosted_ranker "covid" ["covidex"] 100 1
           {| row_ncols := 3; row_entries := {[ 2 := Num (5 * 100) ]} |}
           [2] [Num (5 * 100)] boosted_row_returns).
  - lia.
  - by rewrite boosted_top_document.
Defined.

(** A run of [doc_scores_index_check]: index 3 on three documents. *)
Lemma doc_scores_index_check_witness :
  raises (doc_scores (tools := example_tools) boosted_ranker
            ("covid", [0; 3]) ["covidex"] 100) IndexError.
Proof.
  apply (doc_scores_index_check (tools := example_tools) boosted_ranker
           "covid" [0; 3] ["covidex"] 100 _ boosted_row_returns).
  apply Exists_cons_tl, Exists_cons_hd. simpl. lia.
Defined.

(** A run of [closest_docs_negative_k]: [k = -1] on one stored entry. *)
Lemma closest_docs_negative_k_witness :
  closest_docs (tools := example_tools) (np := example_sort) boosted_ranker
    "covid" ["covidex"] 100 (-1) =
  closest_docs (tools := example_tools) (np := example_sort) boosted_ranker
    "covid" ["covidex"] 100
    (-1 + Z.of_nat (size ({[ 2 := Num (5 * 100) ]} : gmap nat fval))).
Proof.
  apply (closest_docs_negative_k (tools := example_tools)
           (np := example_sort) boosted_ranker "covid" ["covidex"] 100 (-1)
           {| row_ncols := 3; row_entries := {[ 2 := Num (5 * 100) ]} |}
           boosted_row_returns); simpl; rewrite ?map_size_singleton; lia.
Defined.

(** ** A query without features on a lenient index *)

Lemma logged_bind {A B} (l : list log_record) (x : A) (f : A → M B) :
  MkM l (inr x) ≫= f = MkM (l ++ logged (f x)) (outcome (f x)).
Proof. done. Qed.

Lemma add_meta_scores_no_boost self query meta meta_scale res :
  no_boost self query meta →
  add_meta_scores self query meta meta_scale res = mret res.
Proof.
  intros Hno. unfold add_meta_scores. case_decide as Hlen; [|done].
  destruct (dd_sources (doc_dict self)) as [sources|] eqn:Es; [|done].
  specialize (Hno Hlen sources Es).
  induction Hno as [|m meta (src & E1 & E2) _ IH]; [done|].
  cbn [foldlM]. by rewrite (add_meta_score_no_key _ _ _ _ _ src), ret_bind.
Qed.

Lemma cell_empty_row n (idxs : list nat) :
  cell {| row_ncols := n; row_entries := ∅ |} <$> idxs =
  replicate (length idxs) fzero.
Proof. induction idxs as [|d idxs IH]; [done|]. csimpl. by rewrite IH. Qed.

Section LenientEmptyQuery.
Context {tools : TextTools} {np : NumpySort}.

Lemma scored_row_empty_lenient self query meta meta_scale :
  strict self = false → query_wids self query = [] →
  length (mat_rows (doc_mat self)) = hash_size self →
  no_boost self query meta →
  scored_row self query meta meta_scale =
  MkM [LogWarning (no_valid_word query)]
      (inr {| row_ncols := mat_ncols (doc_mat self); row_entries := ∅ |}).
Proof.
  intros Hs Hw Hrows Hno. unfold scored_row.
  rewrite text2spvec_empty_lenient, logged_bind by done.
  unfold csr_mul. simpl. rewrite decide_True by done. rewrite ret_bind.
  rewrite add_meta_scores_no_boost by done.
  unfold accumulate. simpl. by rewrite map_filter_empty.
Qed.

(** The non-strict mode on a query without any hashed feature, when no
    requested meta source has the raw query as a key: [closest_docs]
    (for [k >= 0]) logs the one warning and returns no document at all,
    and [doc_scores] logs it and returns a zero for each requested
    in-range index. *)
Theorem empty_query_lenient self query meta meta_scale (k : Z) idxs :
  strict self = false → query_wids self query = [] →
  length (mat_rows (doc_mat self)) = hash_size self →
  no_boost self query meta →
  ((0 ≤ k)%Z →
     closest_docs self query meta meta_scale k =
     MkM [LogWarning (no_valid_word query)] (inr ([], []))) ∧
  (Forall (λ d, d < mat_ncols (doc_mat self)) idxs →
     doc_scores self (query, idxs) meta meta_scale =
     MkM [LogWarning (no_valid_word query)]
         (inr (replicate (length idxs) fzero))).
Proof.
  intros Hs Hw Hrows Hno. split.
  - intros Hk. unfold closest_docs.
    rewrite scored_row_empty_lenient, logged_bind by done.
    unfold res_data, res_indices. simpl. rewrite map_to_list_empty. simpl.
    rewrite top_positions_all by (simpl; lia). rewrite ret_bind.
    change (fneg <$> []) with (@nil fval).
    pose proof (argsort_perm []) as Hp.
    apply Permutation_nil_r in Hp. by rewrite Hp.
  - intros Hin. unfold doc_scores.
    rewrite scored_row_empty_lenient, logged_bind by done.
    rewrite row_get_many_eq by done. by rewrite cell_empty_row.
Qed.

End LenientEmptyQuery.

(** A run of [empty_query_lenient]: the empty query on the lenient
    index. *)
Lemma empty_query_lenient_witness :
  closest_docs (tools := example_tools) (np := example_sort) lenient_ranker
    "" [] 1 1 = MkM [LogWarning (no_valid_word "")] (inr ([], [])).
Proof.
  apply (empty_query_lenient (tools := example_tools) (np := example_sort)
           lenient_ranker "" [] 1 1 []); done.
Defined.

(** ** Failures in a batch *)

Section BatchFailures.
Context {tools : TextTools} {np : NumpySort}.

(** How the batch calls fail, whatever the order in which the pool
    completes the calls.  A worker count that the pool refuses (below 1)
    stops each of the three with a [ValueError], whatever the items.
    With an accepted count, an exception that leaves
    [batch_closest_docs] or [batch_doc_scores] is one that the
    single-item call raises on some item of the batch, and a batch with
    an item on which the single-item call raises returns nothing. *)
Theorem batch_failures self queries doc_idxs pmids meta meta_scale (k : Z)
    num_workers clock :
  (¬ workers_ok num_workers →
     batch_closest_docs self queries meta meta_scale k num_workers clock =
       raise ValueError ∧
     batch_doc_scores self queries doc_idxs meta meta_scale num_workers
       clock = raise ValueError ∧
     batch_doc_meta self pmids num_workers clock = raise ValueError) ∧
  (workers_ok num_workers →
     (∀ e, raises (batch_closest_docs self queries meta meta_scale k
                     num_workers clock) e →
           ∃ q, q ∈ queries ∧
                raises (closest_docs self q meta meta_scale k) e) ∧
     (∀ e, raises (batch_doc_scores self queries doc_idxs meta meta_scale
                     num_workers clock) e →
           ∃ qd, qd ∈ zip queries doc_idxs ∧
                 raises (doc_scores self qd meta meta_scale) e) ∧
     (∀ q e outs, q ∈ queries →
        raises (closest_docs self q meta meta_scale k) e →
        ¬ returns (batch_closest_docs self queries meta meta_scale k
                     num_workers clock) outs) ∧
     (∀ qd e outs, qd ∈ zip queries doc_idxs →
        raises (doc_scores self qd meta meta_scale) e →
        ¬ returns (batch_doc_scores self queries doc_idxs meta meta_scale
                     num_workers clock) outs)).
Proof.
  unfold batch_closest_docs, batch_doc_scores, batch_doc_meta. split.
  - intros Hw. by rewrite !ThreadPool_map_refused.
  - intros Hw. split; [|split; [|split]].
    + intros e [[? _]|[_ ?]]%raises_ThreadPool_map; done.
    + intros e [[? _]|[_ ?]]%raises_ThreadPool_map; done.
    + intros q e outs Hq He [_ Hr]%returns_ThreadPool_map.
      apply list_elem_of_lookup in Hq as [i Hi].
      destruct (Forall2_lookup_l _ _ _ _ _ Hr Hi) as (y & _ & Hy).
      by eapply returns_raises.
    + intros qd e outs Hqd He [_ Hr]%returns_ThreadPool_map.
      apply list_elem_of_lookup in Hqd as [i Hi].
      destruct (Forall2_lookup_l _ _ _ _ _ Hr Hi) as (y & _ & Hy).
      by eapply returns_raises.
Qed.

End BatchFailures.

(** ** The two id tables *)

Lemma ids_ok_NoDup self : ids_ok self → NoDup (dd_idx2id (doc_dict self)).
Proof.
  intros [Hfwd _]. apply NoDup_alt. intros i j name Hi Hj.
  apply Hfwd in Hi, Hj. congruence.
Qed.

Lemma ids_ok_listed self name i :
  ids_ok self → dd_id2idx (doc_dict self) !! name = Some i →
  name ∈ dd_idx2id (doc_dict self).
Proof.
  intros Hok Hname. pose proof (ids_ok_NoDup self Hok) as Hnd.
  destruct Hok as [Hfwd Hsize]. unfold num_docs in Hsize.
  set (l := dd_idx2id (doc_dict self)) in *.
  set (m := dd_id2idx (doc_dict self)) in *.
  assert (list_to_set l ≡@{gset string} dom m) as Heq.
  { apply set_subseteq_size_equiv.
    - intros x Hx. apply elem_of_list_to_set in Hx.
      apply list_elem_of_lookup in Hx as [j Hj].
      apply elem_of_dom. exists j. by apply Hfwd.
    - rewrite size_dom, size_list_to_set by done. lia. }
  apply (elem_of_list_to_set (C := gset string)). rewrite Heq.
  apply elem_of_dom. by exists i.
Qed.

(** Round trip between document ids and document indices.  When the id
    of every position maps back to that position and the two tables
    have the same number of entries, [get_doc_index] and [get_doc_id]
    are inverse to each other: one returns [i] on [name] exactly when
    the other returns [name] on [i]; so a call of either followed by the
    other gives back the argument. *)
Theorem doc_id_round_trip self name i :
  ids_ok self →
  (returns (get_doc_index self name) i ↔ returns (get_doc_id self i) name) ∧
  (returns (get_doc_index self name) i →
     (get_doc_index self name ≫= get_doc_id self) = mret name) ∧
  (returns (get_doc_id self i) name →
     (get_doc_id self i ≫= get_doc_index self) = mret i).
Proof.
  intros Hok. unfold get_doc_index, get_doc_id.
  assert (dd_id2idx (doc_dict self) !! name = Some i ↔
          dd_idx2id (doc_dict self) !! i = Some name) as Hiff.
  { split; [|apply Hok]. intros Hname.
    pose proof (ids_ok_listed self name i Hok Hname) as Hin.
    apply list_elem_of_lookup in Hin as [j Hj].
    pose proof (proj1 Hok j name Hj) as Hj'. congruence. }
  rewrite returns_dict_get, returns_list_get. split; [done|]. split.
  - intros Hname. unfold dict_get at 1. rewrite Hname, ret_bind.
    apply Hiff in Hname. unfold list_get. by rewrite Hname.
  - intros Hi. unfold list_get at 1. rewrite Hi, ret_bind.
    apply Hiff in Hi. unfold dict_get. by rewrite Hi.
Qed.

Lemma common_term_ids_ok : ids_ok common_term_ranker.
Proof.
  split; [|by vm_compute].
  intros [|[|[|i]]] name; simpl; intros [= <-]; done.
Qed.

(** A run of [doc_id_round_trip] on the three-document index. *)
Lemma doc_id_round_trip_witness :
  returns (get_doc_index common_term_ranker "d1") 1 ↔
  returns (get_doc_id common_term_ranker 1) "d1".
Proof. exact (proj1 (doc_id_round_trip common_term_ranker "d1" 1
                       common_term_ids_ok)). Defined.

(** ** The shape of the query vector *)

Lemma length_remove_dups_le (l : list nat) :
  length (remove_dups l) ≤ length l.
Proof.
  induction l as [|x l IH]; simpl; [done|].
  destruct (decide_rel _ x l); simpl; lia.
Qed.

Lemma StronglySorted_le_lt (l : list nat) :
  NoDup l → StronglySorted (≤) l → StronglySorted lt l.
Proof.
  induction l as [|x l IH]; [constructor|].
  intros [Hx Hnd]%NoDup_cons [Hle Hs]%StronglySorted_cons.
  constructor; [by apply IH|].
  rewrite Forall_forall in Hle. apply Forall_forall. intros y Hy.
  specialize (Hle y Hy). assert (x ≠ y) by (by intros ->). lia.
Qed.

Section VectorShape.
Context {tools : TextTools}.

(** The vector that [text2spvec] returns is in canonical sparse form:
    its column indices are strictly increasing, each is below
    [hash_size], and there are at most as many stored entries as the
    query has hashed n-grams. *)
Theorem text2spvec_canonical self query v :
  0 < hash_size self →
  returns (text2spvec self query) v →
  StronglySorted lt (sv_entries v).*1 ∧
  Forall (λ t, t < hash_size self) (sv_entries v).*1 ∧
  length (sv_entries v) ≤ length (query_wids self query).
Proof.
  intros Hpos. unfold text2spvec. case_decide as Hw.
  - destruct (strict self); [done|].
    intros (_ & _ & Hr)%returns_bind. apply returns_ret in Hr as <-. simpl.
    split; [constructor|]. split; [constructor|lia].
  - intros ([data wids_unique] & Hd & Hr)%returns_bind.
    apply returns_ret in Hr as <-. simpl.
    apply returns_tfidf_data_length in Hd as [-> Hlen].
    rewrite fst_zip by lia. split; [|split].
    + apply StronglySorted_le_lt; [apply NoDup_np_unique_fst|].
      rewrite np_unique_fst. apply StronglySorted_merge_sort; apply _.
    + apply Forall_forall. intros t Ht. rewrite elem_of_np_unique_fst in Ht.
      pose proof (query_wids_range self query Hpos) as Hr.
      rewrite Forall_forall in Hr. by apply Hr.
    + rewrite length_zip, Hlen, Nat.min_id.
      rewrite np_unique_fst, merge_sort_Permutation.
      apply length_remove_dups_le.
Qed.

End VectorShape.

(** A run of [text2spvec_canonical] on the common-term index. *)
Lemma text2spvec_canonical_witness :
  StronglySorted lt [1] ∧ Forall (λ t, t < 2) [1] ∧ 1 ≤ 1.
Proof.
  assert (0 < hash_size common_term_ranker) as Hpos by (simpl; lia).
  apply (text2spvec_canonical (tools := example_tools) common_term_ranker
           "covid" {| sv_ncols := 2; sv_entries := [(1, Num 0)] |} Hpos).
  destruct (common_term_raw_row (DocDict2 three_docs ["d0"; "d1"; "d2"]) true)
    as [E _]; [done|].
  unfold common_term_ranker. by rewrite E.
Defined.

(** ** Scores without a boost are positive *)

Lemma fadd_nonneg a b : fnonneg a → fnonneg b → fnonneg (fadd a b).
Proof. destruct a, b; simpl; try done. lra. Qed.

Lemma fmul_nonneg a b : fnonneg a → fnonneg b → fnonneg (fmul a b).
Proof. destruct a, b; simpl; try done. nra. Qed.

Lemma fzero_nonneg : fnonneg fzero.
Proof. simpl. lra. Qed.

Lemma sums_add_nonneg (sums : gmap nat fval) k x :
  map_Forall (λ _ s, fnonneg s) sums → fnonneg x →
  map_Forall (λ _ s, fnonneg s) (sums_add sums k x).
Proof.
  intros Hs Hx. unfold sums_add. apply map_Forall_insert_2; [|done].
  apply fadd_nonneg; [|done].
  destruct (sums !! k) as [s|] eqn:E; simpl; [by apply (Hs k)|lra].
Qed.

Lemma accumulate_row_nonneg v (brow : list (nat * R)) (sums : gmap nat fval) :
  fnonneg v → Forall (λ kb : nat * R, (0 <= kb.2)%R) brow →
  map_Forall (λ _ s, fnonneg s) sums →
  map_Forall (λ _ s, fnonneg s) (accumulate_row v brow sums).
Proof.
  intros Hv Hrow. unfold accumulate_row. revert sums.
  induction Hrow as [|[k b] brow Hb _ IH]; intros sums Hs; cbn [foldl]; [done|].
  apply IH, sums_add_nonneg; [done|]. by apply fmul_nonneg.
Qed.

Lemma accumulate_nonneg sp B :
  matrix_nonneg B →
  Forall (λ jv : nat * fval, fnonneg jv.2) sp →
  map_Forall (λ _ s, fnonneg s) (accumulate sp (mat_rows B)).
Proof.
  intros HB. unfold accumulate.
  generalize (∅ : gmap nat fval)
    (map_Forall_empty (λ (_ : nat) (s : fval), fnonneg s)).
  intros sums Hs Hsp. revert sums Hs.
  induction Hsp as [|[j v] sp Hv _ IH]; intros sums Hs; cbn [foldl]; [done|].
  apply IH, accumulate_row_nonneg; [done| |done]. simpl.
  rewrite list_lookup_total_alt.
  destruct (mat_rows B !! j) as [row|] eqn:E; simpl; [|constructor].
  unfold matrix_nonneg in HB. rewrite Forall_forall in HB.
  apply HB. by eapply list_elem_of_lookup_2.
Qed.

Lemma csr_mul_positive spvec B res d s :
  matrix_nonneg B →
  Forall (λ jv : nat * fval, fnonneg jv.2) (sv_entries spvec) →
  returns (csr_mul spvec B) res →
  row_entries res !! d = Some s → fpositive s.
Proof.
  intros HB Hsp (_ & ->)%returns_csr_mul Hs. simpl in Hs.
  apply map_lookup_filter_Some in Hs as [Hs Hnz]. simpl in Hnz.
  pose proof (accumulate_nonneg _ _ HB Hsp d s Hs) as Hge.
  destruct s as [x|]; simpl in *; [lra|done].
Qed.

Lemma np_log1p_nonneg c : fnonneg (np_log1p c).
Proof.
  unfold np_log1p. simpl. rewrite <-ln_1.
  pose proof (pos_INR c). destruct (Req_dec_T (INR c) 0) as [->|Hc].
  - rewrite Rplus_0_r. lra.
  - left. apply ln_increasing; lra.
Qed.

Lemma idf_nonneg N Nt : Nt ≤ N → fnonneg (idf N Nt).
Proof. intros Hle. rewrite idf_in_range by done. simpl. apply Rmax_l. Qed.

Lemma zip_with_nonneg (l1 l2 : list fval) :
  Forall fnonneg l1 → Forall fnonneg l2 →
  Forall fnonneg (zip_with fmul l1 l2).
Proof.
  intros H1. revert l2. induction H1 as [|a l1 Ha _ IH]; intros l2 H2; [done|].
  destruct H2 as [|b l2 Hb H2]; [done|]. simpl.
  constructor; [by apply fmul_nonneg|by apply IH].
Qed.

Lemma returns_tfidf_data_nonneg self wids data wids_unique :
  freqs_ok self →
  returns (tfidf_data self wids) (data, wids_unique) → Forall fnonneg data.
Proof.
  intros Hok. unfold tfidf_data. intros (Ns & HNs & Hr)%returns_bind.
  apply returns_ret in Hr. injection Hr as <- _.
  apply zip_with_nonneg.
  - apply Forall_fmap, Forall_forall. intros c _. apply np_log1p_nonneg.
  - apply Forall_fmap. apply returns_freqs_at in HNs as [_ HNs].
    apply returns_index_many in HNs.
    apply Forall_forall. intros Nt HNt. simpl. apply idf_nonneg.
    apply list_elem_of_lookup in HNt as [i Hi].
    destruct (Forall2_lookup_r _ _ _ _ _ HNs Hi) as (t & _ & Ht).
    unfold freqs_ok in Hok. rewrite Forall_forall in Hok.
    apply Hok. by eapply list_elem_of_lookup_2.
Qed.

Section PositiveScores.
Context {tools : TextTools} {np : NumpySort}.

Lemma returns_text2spvec_nonneg self query spvec :
  freqs_ok self → returns (text2spvec self query) spvec →
  Forall (λ jv : nat * fval, fnonneg jv.2) (sv_entries spvec).
Proof.
  intros Hok. unfold text2spvec. case_decide.
  - destruct (strict self); [done|].
    intros (_ & _ & Hr)%returns_bind. by apply returns_ret in Hr as <-.
  - intros ([data wids_unique] & Hd & Hr)%returns_bind.
    apply returns_ret in Hr as <-. simpl.
    apply returns_tfidf_data_nonneg in Hd; [|done].
    rewrite Forall_forall in Hd. apply Forall_forall. intros [j v] Hjv.
    apply Hd. by apply elem_of_zip_r in Hjv.
Qed.

(** Scores without a boost.  On an index whose matrix has no negative
    value and whose document frequencies do not exceed the number of
    documents, when no requested meta source has the raw query as a key,
    every score that [closest_docs] returns is a number above zero. *)
Theorem closest_docs_scores_positive self query meta meta_scale (k : Z)
    ids scores :
  freqs_ok self → matrix_nonneg (doc_mat self) → no_boost self query meta →
  returns (closest_docs self query meta meta_scale k) (ids, scores) →
  Forall fpositive scores.
Proof.
  intros Hok HB Hno Hr.
  destruct (returns_closest_docs_row _ _ _ _ _ _ _ Hr) as (res & Hres & Hp).
  apply returns_scored_row in Hres as (spvec & raw & Hs & Hraw & Hres).
  rewrite add_meta_scores_no_boost in Hres by done.
  apply returns_ret in Hres as <-.
  pose proof (returns_text2spvec_nonneg _ _ _ Hok Hs) as Hsp. clear Hr.
  induction Hp as [|d y ids scores Hd _ IH]; [done|].
  constructor; [|done]. by eapply csr_mul_positive.
Qed.

End PositiveScores.

Lemma rare_term_weight :
  ∃ w, fmul (np_log1p 1) (idf 3 1) = Num w ∧ (0 < w)%R.
Proof.
  rewrite idf_in_range by lia. eexists. split; [reflexivity|].
  apply Rmult_lt_0_compat.
  - rewrite <-ln_1 at 1. apply ln_increasing; simpl; lra.
  - eapply Rlt_le_trans; [|apply Rmax_r].
    rewrite <-ln_1 at 1. apply ln_increasing; [lra|].
    apply idf_ratio_above_one. lia.
Qed.

Lemma rare_term_top_document :
  ∃ x, closest_docs (tools := example_tools) (np := example_sort)
         rare_term_ranker "covid" [] 1 1 = mret ([0], [Num x]).
Proof.
  destruct rare_term_weight as (w & Ew & Hw).
  exists (0 + w * 1)%R. unfold closest_docs, scored_row.
  rewrite (text2spvec_one_bucket _ _ 0 1) by done.
  change (num_docs rare_term_ranker) with 3. rewrite Ew, ret_bind.
  unfold csr_mul. rewrite decide_True by done. rewrite ret_bind.
  unfold add_meta_scores. rewrite decide_False by done. rewrite ret_bind.
  unfold res_data, res_indices, accumulate, accumulate_row, sums_add.
  cbn [foldl sv_entries row_entries fst snd].
  change (mat_rows (doc_mat rare_term_ranker) !!! 1) with [(0, 1%R)].
  cbn [foldl fst snd]. rewrite lookup_empty. simpl.
  rewrite insert_empty, map_filter_singleton_True by (simpl; lra).
  by rewrite map_to_list_singleton.
Qed.

Lemma rare_term_freqs_ok : freqs_ok rare_term_ranker.
Proof. repeat constructor; vm_compute; lia. Qed.

Lemma rare_term_matrix_nonneg : matrix_nonneg (doc_mat rare_term_ranker).
Proof. repeat constructor. simpl. lra. Qed.

Lemma rare_term_no_boost : no_boost rare_term_ranker "covid" [].
Proof. intros _ sources _. constructor. Qed.

(** A run of [closest_docs_scores_positive]: the one document that
    contains the rare term comes back with a score above zero. *)
Lemma closest_docs_scores_positive_witness :
  ∃ x, returns (closest_docs (tools := example_tools) (np := example_sort)
                  rare_term_ranker "covid" [] 1 1) ([0], [Num x]) ∧
       (0 < x)%R.
Proof.
  destruct rare_term_top_document as [x E]. exists x.
  assert (returns (closest_docs (tools := example_tools) (np := example_sort)
                     rare_term_ranker "covid" [] 1 1) ([0], [Num x]))
    as Hr by (by rewrite E).
  split; [exact Hr|].
  pose proof (closest_docs_scores_positive (tools := example_tools)
                (np := example_sort) rare_term_ranker "covid" [] 1 1
                [0] [Num x] rare_term_freqs_ok rare_term_matrix_nonneg
                rare_term_no_boost Hr) as Hpos.
  by apply Forall_cons in Hpos as [Hx _].
Defined.
